(** * Verification of the silence-aware WAV splitter (src/audio/split.py)

    The development embeds the three functions of [split.py] that carry
    logic: [get_audio_duration], [find_optimal_cut_points] and
    [split_audio_file].

    Timestamps are Python numbers (the literals [0], [5], [15] and the floats
    read from the tools).  The planner only adds and compares them, so they
    are embedded as exact rationals [Q]; rounding of binary floats is outside
    the model.  A cut that is copied from the silence list is the very list
    element, a cut computed by the fallback is the term
    [current_start + max_segment]. *)

From Stdlib Require Import QArith Qround Lqa Lia ZArith List Sorted Bool.
From Stdlib Require Import FinFun.
From Stdlib Require Import String Ascii DecimalString DecimalNat.
Import ListNotations.

Open Scope Q_scope.

(** ** Comparisons of Python numbers *)

(** [x < y] as a boolean, next to the library's [Qle_bool]. *)
Definition Qlt_bool (x y : Q) : bool :=
  match x ?= y with
  | Lt => true
  | _ => false
  end.

(** A natural number as a Python number. *)
Definition Qnat (n : nat) : Q := inject_Z (Z.of_nat n).

(** ** A [while] loop with [break]

    [cond] is the loop test, [body] runs one iteration and answers [None]
    when the iteration leaves the loop through [break].  The result pairs the
    state at exit with the number of iterations that were started.  [fuel]
    bounds the number of loop tests; [None] means the fuel ran out. *)
Fixpoint while_loop {St : Type} (cond : St -> bool) (body : St -> option St)
    (fuel : nat) (st : St) : option (St * nat) :=
  match fuel with
  | O => None
  | S fuel' =>
      if cond st then
        match body st with
        | None => Some (st, 1%nat)
        | Some st' =>
            match while_loop cond body fuel' st' with
            | Some (final, n) => Some (final, S n)
            | None => None
            end
        end
      else Some (st, 0%nat)
  end.

(** The loop leaves at a state where the test fails or the body breaks. *)
Definition exit_state {St : Type} (cond : St -> bool) (body : St -> option St)
    (st : St) : Prop :=
  cond st = false \/ (cond st = true /\ body st = None).

(** ** The cut-point planner: [find_optimal_cut_points] *)

Module Planner.

(** The local variables of the [while] loop that survive an iteration. *)
Record loop_state : Type := mkState {
  current_start : Q;
  cut_points : list Q
}.

(** First [for] loop (lines 80-84): overwrite [best_cut] with every point of
    the window [[min_end, ideal_end]], stop at the first point beyond
    [ideal_end]. *)
Fixpoint scan_window (min_end ideal_end : Q) (best_cut : option Q)
    (silence_points : list Q) : option Q :=
  match silence_points with
  | [] => best_cut
  | silence_point :: rest =>
      if Qle_bool min_end silence_point && Qle_bool silence_point ideal_end
      then scan_window min_end ideal_end (Some silence_point) rest
      else if Qlt_bool ideal_end silence_point
      then best_cut
      else scan_window min_end ideal_end best_cut rest
  end.

(** Second [for] loop (lines 88-91): the first point strictly after
    [min_end]. *)
Fixpoint first_after (min_end : Q) (silence_points : list Q) : option Q :=
  match silence_points with
  | [] => None
  | silence_point :: rest =>
      if Qlt_bool min_end silence_point
      then Some silence_point
      else first_after min_end rest
  end.

(** Lines 79-95: the value of [best_cut] when it is appended. *)
Definition select_cut (silence_points : list Q) (min_end ideal_end : Q) : Q :=
  match scan_window min_end ideal_end None silence_points with
  | Some best_cut => best_cut
  | None =>
      match first_after min_end silence_points with
      | Some best_cut => best_cut
      | None => ideal_end
      end
  end.

Section Loop.

Variables (duration : Q) (silence_points : list Q).
Variables (min_segment max_segment : Q).

(** Line 69: [while current_start < duration]. *)
Definition loop_cond (st : loop_state) : bool :=
  Qlt_bool (current_start st) duration.

(** Lines 70-98: one iteration; [None] is the [break] of line 76. *)
Definition loop_body (st : loop_state) : option loop_state :=
  let ideal_end := current_start st + max_segment in
  let min_end := current_start st + min_segment in
  if Qle_bool duration ideal_end then None
  else
    let best_cut := select_cut silence_points min_end ideal_end in
    Some (mkState best_cut (cut_points st ++ [best_cut])).

(** Lines 66-67. *)
Definition initial_state : loop_state := mkState 0 [0].

(** Lines 63-100, with the iteration count of the loop next to the result. *)
Definition run_planner (fuel : nat) : option (list Q * nat) :=
  if Qle_bool duration max_segment then Some ([], 0%nat)
  else
    match while_loop loop_cond loop_body fuel initial_state with
    | Some (final, n) => Some (tl (cut_points final), n)
    | None => None
    end.

Definition find_optimal_cut_points (fuel : nat) : option (list Q) :=
  option_map fst (run_planner fuel).

Definition loop_iterations (fuel : nat) : option nat :=
  option_map snd (run_planner fuel).

(** The call returns [cuts]: some amount of fuel lets the loop finish.  The
    result does not depend on that amount ([returns_deterministic]). *)
Definition returns (cuts : list Q) : Prop :=
  exists fuel, find_optimal_cut_points fuel = Some cuts.

End Loop.

(** *** Vocabulary of the properties *)

(** [s] lies in the closed window [[min_end, ideal_end]]. *)
Definition in_window (min_end ideal_end s : Q) : Prop :=
  min_end <= s /\ s <= ideal_end.

(** [R] relates every boundary to the next one, the first being [prev]:
    [consecutive R 0 cuts] speaks of the pairs of [0 :: cuts]. *)
Fixpoint consecutive (R : Q -> Q -> Prop) (prev : Q) (cuts : list Q) : Prop :=
  match cuts with
  | [] => True
  | c :: rest => R prev c /\ consecutive R c rest
  end.

(** Loop invariant: the list starts with the sentinel [0], ends with the
    cursor, and all its neighbours are related by [R]. *)
Definition chain_inv (R : Q -> Q -> Prop) (st : loop_state) : Prop :=
  exists cs,
    cut_points st = 0 :: cs
    /\ current_start st = last cs 0
    /\ consecutive R 0 cs.

(** The segments that have an end of their own: every one but the last,
    which runs to the end of the file. *)
Fixpoint inner_segments (start_time : Q) (cuts : list Q) : list (Q * Q) :=
  match cuts with
  | [] => []
  | end_time :: rest => (start_time, end_time) :: inner_segments end_time rest
  end.

(** A gap from [p] to [c] is long enough, or is a fixed-length one. *)
Definition gap_ok (min_segment max_segment p c : Q) : Prop :=
  min_segment <= c - p \/ c - p == max_segment.

(** A number of loop tests that suffices when [min_segment] is positive. *)
Definition enough_fuel (duration min_segment : Q) : nat :=
  S (Z.to_nat (Qceiling (duration / min_segment))).

(** The silence list is ascending. *)
Definition ascending (silence_points : list Q) : Prop :=
  Sorted Qle silence_points.

(** Every silence timestamp lies in [[0, duration)]. *)
Definition within (duration : Q) (silence_points : list Q) : Prop :=
  Forall (fun s => 0 <= s /\ s < duration) silence_points.

End Planner.

Import Planner.

(** ** The duration probe: [get_audio_duration] *)

Module Probe.

(** The values [json.loads] builds.  [JObject] lists the items of a [dict],
    whose keys are pairwise distinct. *)
#[warnings="-register-all"]
Inductive json : Type :=
| JNull
| JBool (b : bool)
| JNumber (q : Q)
| JString (s : string)
| JArray (items : list json)
| JObject (members : list (string * json)).

(** The exceptions that the body of the [try] can raise. *)
Inductive exn : Type :=
| CalledProcessError
| OSError
| KeyError
| ValueError
| TypeError.

Inductive result (A : Type) : Type :=
| Return (a : A)
| Raise (e : exn).
Arguments Return {A} a.
Arguments Raise {A} e.

Definition bind {A B : Type} (r : result A) (k : A -> result B) : result B :=
  match r with
  | Return a => k a
  | Raise e => Raise e
  end.

Notation "x <- r ;; k" := (bind r (fun x => k))
  (at level 61, r at next level, right associativity).

(** What [subprocess.run] met: the tool could not be started, or it exited
    with a return code and an output.  The output is given by what
    [json.loads] makes of it, [None] when it is not JSON. *)
Inductive process : Type :=
| NotStarted
| Exited (returncode : Z) (document : option json).

(** [subprocess.run(..., check=True)] followed by [result.stdout]. *)
Definition run_checked (p : process) : result (option json) :=
  match p with
  | NotStarted => Raise OSError
  | Exited returncode document =>
      if (returncode =? 0)%Z then Return document else Raise CalledProcessError
  end.

(** [json.loads]: [JSONDecodeError] is a [ValueError]. *)
Definition json_loads (document : option json) : result json :=
  match document with
  | Some data => Return data
  | None => Raise ValueError
  end.

Fixpoint lookup (key : string) (members : list (string * json)) : option json :=
  match members with
  | [] => None
  | (k, v) :: rest => if String.eqb k key then Some v else lookup key rest
  end.

(** [v[key]] for a string [key]. *)
Definition subscript (v : json) (key : string) : result json :=
  match v with
  | JObject members =>
      match lookup key members with
      | Some x => Return x
      | None => Raise KeyError
      end
  | _ => Raise TypeError
  end.

Section Float.

(** The builtin [float] on a string: [None] stands for [ValueError].  Strings
    that denote no rational ([inf], [nan]) are outside the model. *)
Variable float_of_string : string -> option Q.

(** [float(v)]. *)
Definition py_float (v : json) : result Q :=
  match v with
  | JNumber q => Return q
  | JBool b => Return (if b then 1 else 0)
  | JString s =>
      match float_of_string s with
      | Some q => Return q
      | None => Raise ValueError
      end
  | JNull | JArray _ | JObject _ => Raise TypeError
  end.

(** Line 23: [data['format']['duration']]. *)
Definition duration_field (data : json) : result json :=
  format <- subscript data "format" ;;
  subscript format "duration".

(** Lines 17-23, the body of the [try]. *)
Definition attempt (p : process) : result Q :=
  stdout <- run_checked p ;;
  data <- json_loads stdout ;;
  field <- duration_field data ;;
  py_float field.

(** Lines 14-26: the three caught exceptions become [None], the others
    propagate. *)
Definition get_audio_duration (p : process) : result (option Q) :=
  match attempt p with
  | Return d => Return (Some d)
  | Raise CalledProcessError | Raise KeyError | Raise ValueError => Return None
  | Raise e => Raise e
  end.

End Float.

(** *** Plain decimal numerals

    [float] on the numerals [ffprobe] prints: an optional sign, digits, and
    optionally a point and more digits.  Exponents, underscores and blanks
    around the numeral are not covered. *)

Definition digit_value (c : ascii) : option Z :=
  let n := Z.of_N (N_of_ascii c) in
  if ((48 <=? n) && (n <=? 57))%Z then Some (n - 48)%Z else None.

Fixpoint digits_value (acc : Z) (s : string) : option Z :=
  match s with
  | EmptyString => Some acc
  | String c rest =>
      match digit_value c with
      | Some d => digits_value (acc * 10 + d)%Z rest
      | None => None
      end
  end.

(** The text before the first point, and the text after it if there is one. *)
Fixpoint split_point (s : string) : string * option string :=
  match s with
  | EmptyString => (EmptyString, None)
  | String c rest =>
      if Ascii.eqb c "." then (EmptyString, Some rest)
      else
        let (whole, fraction) := split_point rest in
        (String c whole, fraction)
  end.

Definition unsigned_decimal (s : string) : option Q :=
  let (whole, fraction) := split_point s in
  let fraction := match fraction with Some f => f | None => EmptyString end in
  if (String.length whole + String.length fraction =? 0)%nat then None
  else
    match digits_value 0 (whole ++ fraction) with
    | Some n => Some (n # Z.to_pos (10 ^ Z.of_nat (String.length fraction)))
    | None => None
    end.

Definition decimal_float (s : string) : option Q :=
  match s with
  | String "-" rest => option_map Qopp (unsigned_decimal rest)
  | String "+" rest => unsigned_decimal rest
  | _ => unsigned_decimal s
  end.

(** The failures of the contract: the tool exits with an error, its output
    is not JSON, a key on the way to the duration is missing, or the field is
    a string that [float] rejects. *)
Definition probe_fails (float_of_string : string -> option Q) (p : process)
    : Prop :=
  match p with
  | NotStarted => False
  | Exited returncode document =>
      returncode <> 0%Z
      \/ document = None
      \/ (exists data,
            document = Some data
            /\ (duration_field data = Raise KeyError
                \/ exists s,
                     duration_field data = Return (JString s)
                     /\ float_of_string s = None))
  end.

(** The tool succeeded and the duration field of its output denotes [d]. *)
Definition field_denotes (float_of_string : string -> option Q) (p : process)
    (d : Q) : Prop :=
  exists data field,
    p = Exited 0 (Some data)
    /\ duration_field data = Return field
    /\ py_float float_of_string field = Return d.

(** An output of [ffprobe] whose duration field reads [-3.5], and one whose
    field reads [12.5]. *)
Definition negative_output : process :=
  Exited 0
    (Some (JObject [("format"%string,
                     JObject [("duration"%string, JString "-3.5")])])).

Definition usual_output : process :=
  Exited 0
    (Some (JObject [("format"%string,
                     JObject [("duration"%string, JString "12.5")])])).

End Probe.

(** ** The segment writer: [split_audio_file] *)

Module Writer.

(** [os.path.join] of two components. *)
Definition path_join (a b : string) : string :=
  if String.prefix "/" b then b
  else if (String.length a =? 0)%nat then b
  else if String.eqb (String.substring (String.length a - 1) 1 a) "/"
  then (a ++ b)%string
  else (a ++ "/" ++ b)%string.

Fixpoint zeros (n : nat) : string :=
  match n with
  | O => EmptyString
  | S n' => String "0" (zeros n')
  end.

(** The format [:03d] of a natural number. *)
Definition format_03d (n : nat) : string :=
  let digits := NilZero.string_of_uint (Nat.to_uint n) in
  (zeros (3 - String.length digits) ++ digits)%string.

(** The arguments of one [ffmpeg] call (lines 115-125): [-i], [-ss], the
    optional [-t], and the output file. *)
Record command : Type := mkCommand {
  input : string;
  ss : Q;
  t : option Q;
  output : string
}.

Section Split.

(** [Path(input_file).stem], from [pathlib]. *)
Variable path_stem : string -> string.

(** Whether [subprocess.run(cmd, check=True)] came back without
    [CalledProcessError]. *)
Variable run : command -> bool.

Variables (input_file output_dir : string).

Definition output_name (segment_num : nat) : string :=
  path_join output_dir
    ("split_" ++ path_stem input_file ++ "_" ++ format_03d segment_num
       ++ ".wav")%string.

(** Lines 110-137: the [for] loop over [cut_points + [None]].  Every attempt
    is recorded with its outcome; a failed one only prints a message. *)
Fixpoint split_loop (start_time : Q) (segment_num : nat)
    (ends : list (option Q)) : list (command * bool) :=
  match ends with
  | [] => []
  | None :: _ =>
      let cmd := mkCommand input_file start_time None
                   (output_name segment_num) in
      [(cmd, run cmd)]
  | Some end_time :: rest =>
      let cmd := mkCommand input_file start_time
                   (Some (end_time - start_time)) (output_name segment_num) in
      (cmd, run cmd) :: split_loop end_time (S segment_num) rest
  end.

Definition split_audio_file (cut_points : list Q) : list (command * bool) :=
  split_loop 0 0%nat (map Some cut_points ++ [None]).

End Split.

End Writer.

(** ** The silence detector: [detect_silence_points] *)

Module Detector.

(** Text is a sequence of characters with code points below 256. *)

(** [sub in s]. *)
Fixpoint contains (sub s : string) : bool :=
  String.prefix sub s
  || match s with
     | EmptyString => false
     | String _ rest => contains sub rest
     end.

(** [s.split(sep)] for a non-empty [sep].  The result starts with the piece
    under construction; [skip] counts the characters of a separator that
    are still to be passed over. *)
Fixpoint split_skip (sep : string) (skip : nat) (s : string) : list string :=
  match s with
  | EmptyString => [EmptyString]
  | String c rest =>
      match skip with
      | S skip' => split_skip sep skip' rest
      | O =>
          if String.prefix sep s
          then EmptyString :: split_skip sep (String.length sep - 1) rest
          else
            match split_skip sep 0 rest with
            | piece :: more => String c piece :: more
            | [] => [String c EmptyString]
            end
      end
  end.

Definition split (sep s : string) : list string := split_skip sep 0 s.

(** [sep.join(pieces)]. *)
Fixpoint join (sep : string) (pieces : list string) : string :=
  match pieces with
  | [] => EmptyString
  | [piece] => piece
  | piece :: more => (piece ++ sep ++ join sep more)%string
  end.

(** The characters [str.split()] treats as blank. *)
Definition is_space (c : ascii) : bool :=
  let n := nat_of_ascii c in
  ((9 <=? n) && (n <=? 13) || (28 <=? n) && (n <=? 32)
   || (n =? 133) || (n =? 160))%nat.

(** [s.split()]: the maximal runs of non-blank characters.  [in_token]
    tells whether the result starts with a token under construction. *)
Fixpoint tokens (in_token : bool) (s : string) : list string :=
  match s with
  | EmptyString => if in_token then [EmptyString] else []
  | String c rest =>
      if is_space c
      then if in_token then EmptyString :: tokens false rest
           else tokens false rest
      else
        match tokens true rest with
        | token :: more => String c token :: more
        | [] => [String c EmptyString]
        end
  end.

Definition split_whitespace (s : string) : list string := tokens false s.

Definition newline : string := String (ascii_of_nat 10) EmptyString.

(** The two lists of lines 38-39. *)
Record marks : Type := mkMarks {
  silence_starts : list Q;
  silence_ends : list Q
}.

(** What [subprocess.run] met (line 31, no [check=True]): the tool could not
    be started, or it ran and left a return code and its diagnostic text. *)
Inductive tool_run : Type :=
| NotStarted
| Finished (returncode : Z) (stderr : string).

Section Detect.

(** The builtin [float] on a string, [None] for [ValueError]. *)
Variable float_of_string : string -> option Q.

(** [float(line.split(marker)[1].split()[0])]; [None] stands for the
    [IndexError] and the [ValueError] of lines 46 and 52. *)
Definition time_after (marker line : string) : option Q :=
  match nth_error (split marker line) 1 with
  | None => None
  | Some piece =>
      match split_whitespace piece with
      | [] => None
      | token :: _ => float_of_string token
      end
  end.

(** Lines 42-53: the body of the [for] loop. *)
Definition scan_line (found : marks) (line : string) : marks :=
  if contains "silence_start:" line then
    match time_after "silence_start: " line with
    | Some start_time =>
        mkMarks (silence_starts found ++ [start_time]) (silence_ends found)
    | None => found
    end
  else if contains "silence_end:" line then
    match time_after "silence_end: " line with
    | Some end_time =>
        mkMarks (silence_starts found) (silence_ends found ++ [end_time])
    | None => found
    end
  else found.

(** Lines 38-56 on the diagnostic text. *)
Definition silence_ends_of (stderr : string) : list Q :=
  silence_ends (fold_left scan_line (split newline stderr) (mkMarks [] [])).

(** Lines 28-59.  [subprocess.run] is called without [check=True], so the
    return code is not looked at and the handler of line 57 is never
    entered; a tool that cannot be started raises [OSError]. *)
Definition detect_silence_points (r : tool_run) : Probe.result (list Q) :=
  match r with
  | NotStarted => Probe.Raise Probe.OSError
  | Finished _ stderr => Probe.Return (silence_ends_of stderr)
  end.

End Detect.

(** No character of [s] is blank. *)
Fixpoint no_space (s : string) : bool :=
  match s with
  | EmptyString => true
  | String c rest => negb (is_space c) && no_space rest
  end.

(** [s] is empty or starts with a blank. *)
Definition ends_token (s : string) : bool :=
  match s with
  | EmptyString => true
  | String c _ => is_space c
  end.

End Detector.

(** ** The batch driver: the body of the loop of [main] *)

Module Driver.

(** The tools as [main] meets them on one run. *)
Record world : Type := mkWorld {
  ffprobe : string -> Probe.process;
  silencedetect : string -> Detector.tool_run;
  float_of_string : string -> option Q;
  path_stem : string -> string;
  ffmpeg : Writer.command -> bool;
  cp : string -> string -> bool
}.

(** What was asked of the tools for one input file: a copy of the whole
    file, or an extraction, each with its outcome. *)
Inductive action : Type :=
| Copied (source target : string) (ok : bool)
| Extracted (cmd : Writer.command) (ok : bool).

Definition output_dir : string := "./wav".

(** Lines 153-184 for one [wav_file].  [None] means that the planner ran out
    of [fuel]; an uncaught exception of the probe or of the detector
    propagates. *)
Definition process_file (w : world) (fuel : nat) (wav_file : string)
    : option (Probe.result (list action)) :=
  match Probe.get_audio_duration (float_of_string w) (ffprobe w wav_file) with
  | Probe.Raise e => Some (Probe.Raise e)
  | Probe.Return None => Some (Probe.Return [])
  | Probe.Return (Some duration) =>
      if Qle_bool duration 15 then
        let output_file :=
          Writer.path_join output_dir
            ("split_" ++ path_stem w wav_file ++ "_000.wav")%string in
        Some (Probe.Return
                [Copied wav_file output_file (cp w wav_file output_file)])
      else
        match Detector.detect_silence_points (float_of_string w)
                (silencedetect w wav_file) with
        | Probe.Raise e => Some (Probe.Raise e)
        | Probe.Return silence_points =>
            match Planner.find_optimal_cut_points duration silence_points
                    5 15 fuel with
            | None => None
            | Some cut_points =>
                Some (Probe.Return
                        (map (fun r => Extracted (fst r) (snd r))
                           (Writer.split_audio_file (path_stem w) (ffmpeg w)
                              wav_file output_dir cut_points)))
            end
        end
  end.

(** A run on which every file lasts 40 seconds, has one silence that ends
    at 14 seconds, and every tool succeeds. *)
Definition sample_world : world :=
  mkWorld
    (fun _ =>
       Probe.Exited 0
         (Some (Probe.JObject
                  [("format"%string,
                    Probe.JObject
                      [("duration"%string, Probe.JString "40.0")])])))
    (fun _ =>
       Detector.Finished 0
         "[silencedetect @ 0x55d5] silence_end: 14 | silence_duration: 0.8")
    Probe.decimal_float
    (fun _ => "foo"%string)
    (fun _ => true)
    (fun _ _ => true).

End Driver.

(** ** Vocabulary of the further properties *)

Module Shapes.

(** A JSON value that is a [dict]. *)
Definition is_object (v : Probe.json) : bool :=
  match v with
  | Probe.JObject _ => true
  | _ => false
  end.

(** A JSON value on which [float] raises [TypeError]. *)
Definition unconvertible (v : Probe.json) : bool :=
  match v with
  | Probe.JNull | Probe.JArray _ | Probe.JObject _ => true
  | _ => false
  end.

(** The number that a decimal numeral denotes, leading zeros allowed. *)
Definition read_index (s : string) : option nat :=
  option_map Nat.of_uint (NilEmpty.uint_of_string s).

(** Extractions that follow each other without a gap: each starts at
    [start_time], where the one before ended, and only the last has no
    duration. *)
Fixpoint contiguous (start_time : Q) (cmds : list Writer.command) : Prop :=
  match cmds with
  | [] => False
  | cmd :: rest =>
      Writer.ss cmd == start_time
      /\ match rest with
         | [] => Writer.t cmd = None
         | _ :: _ =>
             exists d, Writer.t cmd = Some d
                       /\ contiguous (start_time + d) rest
         end
  end.

(** The silence points that one line of the diagnostic text adds. *)
Definition line_ends (float_of_string : string -> option Q) (line : string)
    : list Q :=
  Detector.silence_ends
    (Detector.scan_line float_of_string (Detector.mkMarks [] []) line).

End Shapes.

(** ** Facts about the comparisons *)

Lemma Qlt_bool_iff (x y : Q) : Qlt_bool x y = true <-> x < y.
Proof.
  unfold Qlt_bool. rewrite Qlt_alt.
  destruct (x ?= y); split; intro H; try reflexivity; discriminate H.
Qed.

Lemma Qlt_bool_false (x y : Q) : Qlt_bool x y = false <-> y <= x.
Proof.
  split; intro H.
  - apply Qnot_lt_le. intro L. apply Qlt_bool_iff in L. congruence.
  - destruct (Qlt_bool x y) eqn:E; [|reflexivity].
    apply Qlt_bool_iff in E. exfalso. apply (Qlt_not_le _ _ E H).
Qed.

Lemma Qle_bool_false (x y : Q) : Qle_bool x y = false <-> y < x.
Proof.
  split; intro H.
  - apply Qnot_le_lt. intro L. apply Qle_bool_iff in L. congruence.
  - destruct (Qle_bool x y) eqn:E; [|reflexivity].
    apply Qle_bool_iff in E. exfalso. apply (Qlt_not_le _ _ H E).
Qed.

(** Case analysis on a comparison, with the order fact in the context. *)
Ltac case_Qle x y H :=
  destruct (Qle_bool x y) eqn:H;
  [apply Qle_bool_iff in H | apply Qle_bool_false in H].
Ltac case_Qlt x y H :=
  destruct (Qlt_bool x y) eqn:H;
  [apply Qlt_bool_iff in H | apply Qlt_bool_false in H].

(** ** Facts about the generic loop *)

Section WhileLoop.

Context {St : Type} (cond : St -> bool) (body : St -> option St).

Lemma while_loop_invariant (Inv : St -> Prop) :
  (forall st st', Inv st -> cond st = true -> body st = Some st' -> Inv st') ->
  forall fuel st final n,
    Inv st ->
    while_loop cond body fuel st = Some (final, n) ->
    Inv final /\ exit_state cond body final.
Proof.
  intros Hstep. induction fuel as [|fuel IH]; intros st final n Hst Hrun.
  - discriminate Hrun.
  - simpl in Hrun. destruct (cond st) eqn:Hc.
    + destruct (body st) as [st'|] eqn:Hb.
      * destruct (while_loop cond body fuel st') as [[f m]|] eqn:Hr;
          [|discriminate Hrun].
        injection Hrun as <- <-.
        eapply IH; [|exact Hr]. eapply Hstep; eauto.
      * injection Hrun as <- <-. split; [exact Hst|right; auto].
    + injection Hrun as <- <-. split; [exact Hst|left; exact Hc].
Qed.

(** More fuel never changes a result. *)
Lemma while_loop_fuel_mono :
  forall fuel fuel' st r,
    (fuel <= fuel')%nat ->
    while_loop cond body fuel st = Some r ->
    while_loop cond body fuel' st = Some r.
Proof.
  induction fuel as [|fuel IH]; intros fuel' st r Hle Hrun.
  - discriminate Hrun.
  - destruct fuel' as [|fuel']; [lia|].
    simpl in *. destruct (cond st); [|exact Hrun].
    destruct (body st) as [st'|]; [|exact Hrun].
    destruct (while_loop cond body fuel st') as [[f m]|] eqn:Hr;
      [|discriminate Hrun].
    rewrite (IH fuel' st' (f, m)); [exact Hrun|lia|exact Hr].
Qed.

End WhileLoop.


(** ** The two scans of the silence list *)

Section Scans.

Variables (min_end ideal_end : Q).

Lemma scan_window_origin (l : list Q) :
  forall best c,
    scan_window min_end ideal_end best l = Some c ->
    best = Some c \/ (In c l /\ in_window min_end ideal_end c).
Proof.
  induction l as [|x r IH]; intros best c H; simpl in H.
  - left; exact H.
  - case_Qle min_end x H1; case_Qle x ideal_end H2; simpl in H.
    + apply IH in H. destruct H as [H|[H W]].
      * injection H as <-. right. split; [left; reflexivity|split; assumption].
      * right. split; [right; exact H|exact W].
    + case_Qlt ideal_end x H3; [left; exact H|]. exfalso; lra.
    + case_Qlt ideal_end x H3; [left; exact H|].
      apply IH in H. destruct H as [H|[H W]]; [left; exact H|].
      right. split; [right; exact H|exact W].
    + case_Qlt ideal_end x H3; [left; exact H|]. exfalso; lra.
Qed.

Lemma scan_window_keeps (l : list Q) :
  forall b, exists c, scan_window min_end ideal_end (Some b) l = Some c.
Proof.
  induction l as [|x r IH]; intros b; simpl.
  - exists b; reflexivity.
  - destruct (Qle_bool min_end x && Qle_bool x ideal_end); [apply IH|].
    destruct (Qlt_bool ideal_end x); [exists b; reflexivity|apply IH].
Qed.

(** On an ascending list nothing of the window is left behind the result. *)
Lemma scan_window_upper (l : list Q) :
  StronglySorted Qle l ->
  forall best c,
    scan_window min_end ideal_end best l = Some c ->
    forall s, In s l -> in_window min_end ideal_end s -> s <= c.
Proof.
  induction 1 as [|x r Hs IH Hx]; intros best c H s Hin [W1 W2].
  - destruct Hin.
  - rewrite Forall_forall in Hx. simpl in H.
    case_Qle min_end x H1; case_Qle x ideal_end H2; simpl in H.
    + destruct Hin as [<-|Hin].
      * apply scan_window_origin in H. destruct H as [H|[H _]].
        -- injection H as <-. apply Qle_refl.
        -- apply Hx; exact H.
      * eapply IH; eauto. split; assumption.
    + destruct Hin as [<-|Hin]; [exfalso; lra|].
      specialize (Hx _ Hin). exfalso; lra.
    + case_Qlt ideal_end x H3; [exfalso; lra|].
      destruct Hin as [<-|Hin]; [exfalso; lra|].
      eapply IH; eauto. split; assumption.
    + destruct Hin as [<-|Hin]; [exfalso; lra|].
      specialize (Hx _ Hin). exfalso; lra.
Qed.

(** On an ascending list a point of the window is always found. *)
Lemma scan_window_finds (l : list Q) :
  StronglySorted Qle l ->
  forall best s,
    In s l -> in_window min_end ideal_end s ->
    exists c, scan_window min_end ideal_end best l = Some c /\ In c l.
Proof.
  induction 1 as [|x r Hs IH Hx]; intros best s Hin [W1 W2].
  - destruct Hin.
  - rewrite Forall_forall in Hx. simpl.
    case_Qle min_end x H1; case_Qle x ideal_end H2; simpl.
    + destruct (scan_window_keeps r x) as [c Hc]. exists c. split; [exact Hc|].
      apply scan_window_origin in Hc. destruct Hc as [Hc|[Hc _]].
      * injection Hc as <-. left; reflexivity.
      * right; exact Hc.
    + destruct Hin as [<-|Hin]; [exfalso; lra|].
      specialize (Hx _ Hin). exfalso; lra.
    + case_Qlt ideal_end x H3; [exfalso; lra|].
      destruct Hin as [<-|Hin]; [exfalso; lra|].
      destruct (IH best s Hin (conj W1 W2)) as [c [Hc Hc']].
      exists c. split; [exact Hc|right; exact Hc'].
    + destruct Hin as [<-|Hin]; [exfalso; lra|].
      specialize (Hx _ Hin). exfalso; lra.
Qed.

Lemma first_after_origin (l : list Q) :
  forall c, first_after min_end l = Some c -> In c l /\ min_end < c.
Proof.
  induction l as [|x r IH]; intros c H; simpl in H.
  - discriminate H.
  - case_Qlt min_end x H1.
    + injection H as <-. split; [left; reflexivity|exact H1].
    + apply IH in H. destruct H as [H L]. split; [right; exact H|exact L].
Qed.

(** The three origins of a cut: lines 82, 90 and 95. *)
Lemma select_cut_cases (l : list Q) :
  let c := select_cut l min_end ideal_end in
  (In c l /\ in_window min_end ideal_end c)
  \/ (In c l /\ min_end < c)
  \/ c = ideal_end.
Proof.
  unfold select_cut.
  destruct (scan_window min_end ideal_end None l) as [c|] eqn:H1.
  - apply scan_window_origin in H1. destruct H1 as [H1|H1];
      [discriminate H1|left; exact H1].
  - destruct (first_after min_end l) as [c|] eqn:H2.
    + right; left. apply first_after_origin; exact H2.
    + right; right. reflexivity.
Qed.

End Scans.

(** ** One iteration of the planner loop *)

Section PlannerFacts.

Variables (duration : Q) (silence_points : list Q).
Variables (min_segment max_segment : Q).

Local Abbreviation body :=
  (loop_body duration silence_points min_segment max_segment).
Local Abbreviation cond := (loop_cond duration).
Local Abbreviation cut_after p :=
  (select_cut silence_points (p + min_segment) (p + max_segment)).

Lemma loop_body_some (st st' : loop_state) :
  body st = Some st' ->
  current_start st + max_segment < duration
  /\ st' = mkState (cut_after (current_start st))
                   (cut_points st ++ [cut_after (current_start st)]).
Proof.
  unfold loop_body. intro H.
  case_Qle duration (current_start st + max_segment) Hb; [discriminate H|].
  injection H as <-. split; [exact Hb|reflexivity].
Qed.

Lemma loop_body_none (st : loop_state) :
  body st = None -> duration <= current_start st + max_segment.
Proof.
  unfold loop_body. intro H.
  case_Qle duration (current_start st + max_segment) Hb;
    [exact Hb|discriminate H].
Qed.

(** A cut is never before [min_end], whatever the order of the list. *)
Lemma cut_after_min (p : Q) :
  min_segment <= max_segment -> p + min_segment <= cut_after p.
Proof.
  intro Hmm.
  destruct (select_cut_cases (p + min_segment) (p + max_segment)
              silence_points) as [[_ [W _]]|[[_ W]|W]].
  - exact W.
  - apply Qlt_le_weak; exact W.
  - rewrite W. lra.
Qed.

(** *** Every pair of neighbouring boundaries *)

Lemma last_cons_default (l : list Q) :
  forall x d d', last (x :: l) d = last (x :: l) d'.
Proof.
  induction l as [|y r IH]; intros x d d'; [reflexivity|].
  change (last (y :: r) d = last (y :: r) d'). apply IH.
Qed.

Lemma consecutive_snoc (R : Q -> Q -> Prop) (l : list Q) :
  forall p c,
    consecutive R p l -> R (last l p) c -> consecutive R p (l ++ [c]).
Proof.
  induction l as [|x r IH]; intros p c Hl Hc.
  - split; [exact Hc|exact I].
  - destruct Hl as [Hx Hr]. split; [exact Hx|].
    apply IH; [exact Hr|].
    destruct r as [|y r]; [exact Hc|].
    rewrite (last_cons_default r y x p).
    exact Hc.
Qed.

Lemma chain_inv_step (R : Q -> Q -> Prop) :
  (forall p, p < duration -> p + max_segment < duration -> R p (cut_after p)) ->
  forall st st',
    chain_inv R st -> cond st = true -> body st = Some st' -> chain_inv R st'.
Proof.
  intros HR st st' (cs & Hcs & Hlast & Hchain) Hc Hb.
  apply loop_body_some in Hb. destruct Hb as [Hlt ->].
  apply Qlt_bool_iff in Hc.
  exists (cs ++ [cut_after (current_start st)]). simpl. repeat split.
  - rewrite Hcs. reflexivity.
  - rewrite last_last. reflexivity.
  - apply consecutive_snoc; [exact Hchain|].
    rewrite <- Hlast. apply HR; assumption.
Qed.

(** What a finished run says about its result: the neighbours are related,
    and the loop stopped because the cursor reached [duration] or because
    the rest fits into one segment. *)
Lemma run_planner_chain (R : Q -> Q -> Prop) :
  (forall p, p < duration -> p + max_segment < duration -> R p (cut_after p)) ->
  forall fuel cuts n,
    run_planner duration silence_points min_segment max_segment fuel
      = Some (cuts, n) ->
    consecutive R 0 cuts
    /\ (duration <= last cuts 0 \/ duration <= last cuts 0 + max_segment).
Proof.
  intros HR fuel cuts n. unfold run_planner.
  case_Qle duration max_segment Hd.
  - intro H. injection H as <- <-. simpl. split; [exact I|right; lra].
  - destruct (while_loop cond body fuel initial_state) as [[final m]|] eqn:Hr;
      [|discriminate].
    intro H. injection H as <- <-.
    apply (while_loop_invariant cond body (chain_inv R) (chain_inv_step R HR))
      in Hr.
    + destruct Hr as [(cs & Hcs & Hlast & Hchain) Hexit].
      rewrite Hcs. simpl. split; [exact Hchain|].
      rewrite <- Hlast. destruct Hexit as [Hexit|[_ Hexit]].
      * left. apply Qlt_bool_false; exact Hexit.
      * right. apply loop_body_none; exact Hexit.
    + exists []. simpl. repeat split; reflexivity.
Qed.

End PlannerFacts.

(** ** Termination and the number of iterations *)

Lemma Qnat_succ (n : nat) : Qnat (S n) == Qnat n + 1.
Proof.
  unfold Qnat. rewrite Nat2Z.inj_succ. unfold Z.succ.
  rewrite inject_Z_plus. reflexivity.
Qed.

Lemma Qnat_nonneg (n : nat) : 0 <= Qnat n.
Proof.
  unfold Qnat. change 0 with (inject_Z 0). rewrite <- Zle_Qle. lia.
Qed.

Section Termination.

Variables (duration : Q) (silence_points : list Q).
Variables (min_segment max_segment : Q).
Hypothesis min_positive : 0 < min_segment.
Hypothesis min_le_max : min_segment <= max_segment.

Local Abbreviation body :=
  (loop_body duration silence_points min_segment max_segment).
Local Abbreviation cond := (loop_cond duration).

(** The cursor moves forward by at least [min_segment]. *)
Lemma loop_body_advances (st st' : loop_state) :
  body st = Some st' ->
  current_start st + min_segment <= current_start st'.
Proof.
  intro H. apply loop_body_some in H. destruct H as [_ ->]. simpl.
  apply cut_after_min; exact min_le_max.
Qed.

(** [fuel] segments of length [min_segment] cover what is left: the loop
    finishes within [S fuel] tests. *)
Lemma while_loop_terminates (fuel : nat) :
  forall st,
    duration - current_start st <= Qnat fuel * min_segment ->
    exists r, while_loop cond body (S fuel) st = Some r.
Proof.
  induction fuel as [|fuel IH]; intros st Hm.
  - simpl. unfold loop_cond. change (Qnat 0) with 0 in Hm.
    case_Qlt (current_start st) duration Hc; [exfalso; lra|].
    eexists; reflexivity.
  - change (while_loop cond body (S (S fuel)) st)
      with (if cond st then
              match body st with
              | None => Some (st, 1%nat)
              | Some st' =>
                  match while_loop cond body (S fuel) st' with
                  | Some (final, n) => Some (final, S n)
                  | None => None
                  end
              end
            else Some (st, 0%nat)).
    destruct (cond st); [|eexists; reflexivity].
    destruct (body st) as [st'|] eqn:Hb; [|eexists; reflexivity].
    apply loop_body_advances in Hb.
    destruct (IH st') as [[final n] Hr].
    + rewrite Qnat_succ in Hm. lra.
    + rewrite Hr. eexists; reflexivity.
Qed.

(** [n] started iterations leave more than [n - 1] segments of length
    [min_segment] between the cursor and [duration]. *)
Lemma while_loop_count (fuel : nat) :
  forall st final n,
    while_loop cond body fuel st = Some (final, n) ->
    n = 0%nat \/ (Qnat n - 1) * min_segment < duration - current_start st.
Proof.
  induction fuel as [|fuel IH]; intros st final n H; [discriminate H|].
  simpl in H. destruct (cond st) eqn:Hc.
  - apply Qlt_bool_iff in Hc.
    destruct (body st) as [st'|] eqn:Hb.
    + destruct (while_loop cond body fuel st') as [[f m]|] eqn:Hr;
        [|discriminate H].
      injection H as <- <-. right.
      apply loop_body_advances in Hb.
      apply IH in Hr. rewrite Qnat_succ. destruct Hr as [->|Hr].
      * change (Qnat 0) with 0. lra.
      * lra.
    + injection H as <- <-. right. change (Qnat 1) with 1. lra.
  - injection H as <- <-. left; reflexivity.
Qed.

End Termination.

(** ** The planner as a whole *)

Section PlannerRuns.

Variables (duration : Q) (silence_points : list Q).
Variables (min_segment max_segment : Q).

Local Abbreviation run :=
  (run_planner duration silence_points min_segment max_segment).
Local Abbreviation plan :=
  (find_optimal_cut_points duration silence_points min_segment max_segment).
Local Abbreviation cut_after p :=
  (select_cut silence_points (p + min_segment) (p + max_segment)).

Lemma run_planner_fuel_mono (fuel fuel' : nat) (r : list Q * nat) :
  (fuel <= fuel')%nat -> run fuel = Some r -> run fuel' = Some r.
Proof.
  unfold run_planner. intros Hle.
  destruct (Qle_bool duration max_segment); [auto|].
  destruct (while_loop _ _ fuel initial_state) as [[final n]|] eqn:Hr;
    [|discriminate].
  rewrite (while_loop_fuel_mono _ _ fuel fuel' _ _ Hle Hr). auto.
Qed.

(** The result does not depend on the fuel. *)
Lemma run_planner_deterministic (fuel fuel' : nat) (r r' : list Q * nat) :
  run fuel = Some r -> run fuel' = Some r' -> r = r'.
Proof.
  intros H H'.
  apply (run_planner_fuel_mono fuel (Nat.max fuel fuel')) in H; [|lia].
  apply (run_planner_fuel_mono fuel' (Nat.max fuel fuel')) in H'; [|lia].
  congruence.
Qed.

Lemma plan_run (fuel : nat) (cuts : list Q) :
  plan fuel = Some cuts <-> exists n, run fuel = Some (cuts, n).
Proof.
  unfold find_optimal_cut_points. split.
  - destruct (run fuel) as [[c n]|]; simpl; [|discriminate].
    intro H. injection H as <-. exists n; reflexivity.
  - intros [n ->]. reflexivity.
Qed.

Lemma returns_deterministic (cuts cuts' : list Q) :
  returns duration silence_points min_segment max_segment cuts ->
  returns duration silence_points min_segment max_segment cuts' ->
  cuts = cuts'.
Proof.
  intros [f H] [f' H']. apply plan_run in H, H'.
  destruct H as [n H], H' as [n' H'].
  pose proof (run_planner_deterministic _ _ _ _ H H') as E. congruence.
Qed.

Lemma returns_chain (R : Q -> Q -> Prop) (cuts : list Q) :
  (forall p, p < duration -> p + max_segment < duration -> R p (cut_after p)) ->
  returns duration silence_points min_segment max_segment cuts ->
  consecutive R 0 cuts
  /\ (duration <= last cuts 0 \/ duration <= last cuts 0 + max_segment).
Proof.
  intros HR [fuel H]. apply plan_run in H. destruct H as [n H].
  eapply run_planner_chain; eauto.
Qed.

Hypothesis min_positive : 0 < min_segment.
Hypothesis min_le_max : min_segment <= max_segment.

Lemma enough_fuel_covers :
  duration <= Qnat (Z.to_nat (Qceiling (duration / min_segment))) * min_segment.
Proof.
  set (k := Qceiling (duration / min_segment)).
  assert (H1 : duration / min_segment <= inject_Z k) by apply Qle_ceiling.
  assert (H2 : inject_Z k <= Qnat (Z.to_nat k)).
  { unfold Qnat. rewrite <- Zle_Qle. lia. }
  assert (H3 : duration == duration / min_segment * min_segment).
  { field. lra. }
  rewrite H3 at 1. apply Qmult_le_compat_r; lra.
Qed.

Lemma run_planner_total :
  exists r, run (enough_fuel duration min_segment) = Some r.
Proof.
  unfold run_planner, enough_fuel.
  destruct (Qle_bool duration max_segment); [eexists; reflexivity|].
  destruct (while_loop_terminates duration silence_points min_segment
              max_segment min_le_max
              (Z.to_nat (Qceiling (duration / min_segment))) initial_state)
    as [[final n] Hr].
  - simpl. pose proof enough_fuel_covers. lra.
  - rewrite Hr. eexists; reflexivity.
Qed.

Lemma returns_total :
  exists cuts, returns duration silence_points min_segment max_segment cuts.
Proof.
  destruct run_planner_total as [[cuts n] H].
  exists cuts, (enough_fuel duration min_segment).
  apply plan_run. exists n; exact H.
Qed.

End PlannerRuns.

(** ** Shapes of the result *)

Lemma ascending_strongly (l : list Q) : ascending l -> StronglySorted Qle l.
Proof.
  apply Sorted_StronglySorted. intros x y z. apply Qle_trans.
Qed.

Lemma consecutive_segments (R : Q -> Q -> Prop) (l : list Q) :
  forall p,
    consecutive R p l ->
    Forall (fun seg => R (fst seg) (snd seg)) (inner_segments p l).
Proof.
  induction l as [|c r IH]; intros p H; simpl.
  - constructor.
  - destruct H as [H1 H2]. constructor; [exact H1|apply IH; exact H2].
Qed.

Lemma consecutive_increasing (d : Q) (l : list Q) :
  forall p,
    consecutive (fun p c => p < c /\ c < d) p l ->
    StronglySorted Qlt l /\ Forall (fun c => p < c /\ c < d) l.
Proof.
  induction l as [|c r IH]; intros p H; simpl in H.
  - split; constructor.
  - destruct H as [[H1 H2] H3]. destruct (IH c H3) as [Hs Hf]. split.
    + constructor; [exact Hs|].
      eapply Forall_impl; [|exact Hf]. intros x [Hx _]. exact Hx.
    + constructor; [split; assumption|].
      eapply Forall_impl; [|exact Hf]. intros x [Hx Hd].
      split; [apply (Qlt_trans _ c); assumption|exact Hd].
Qed.

Section CutFacts.

Variables (duration : Q) (silence_points : list Q).
Variables (min_segment max_segment : Q).

Local Abbreviation cut_after p :=
  (select_cut silence_points (p + min_segment) (p + max_segment)).

Lemma cut_after_origin (p : Q) :
  In (cut_after p) silence_points \/ cut_after p = p + max_segment.
Proof.
  destruct (select_cut_cases (p + min_segment) (p + max_segment)
              silence_points) as [[H _]|[[H _]|H]]; auto.
Qed.

Lemma cut_after_inside (p : Q) :
  within duration silence_points ->
  0 < min_segment -> min_segment <= max_segment ->
  p + max_segment < duration ->
  p < cut_after p /\ cut_after p < duration.
Proof.
  intros Hw Hpos Hmm Hlt. unfold within in Hw. rewrite Forall_forall in Hw.
  destruct (select_cut_cases (p + min_segment) (p + max_segment)
              silence_points) as [[H [W1 W2]]|[[H W]|H]].
  - split; lra.
  - destruct (Hw _ H) as [_ Hd]. split; lra.
  - rewrite H. split; lra.
Qed.

End CutFacts.

Lemma consecutive_weaken (R R' : Q -> Q -> Prop) (l : list Q) :
  (forall p c, R p c -> R' p c) ->
  forall p, consecutive R p l -> consecutive R' p l.
Proof.
  intro HR. induction l as [|c r IH]; intros p H; [exact I|].
  destruct H as [H1 H2]. split; [apply HR; exact H1|apply IH; exact H2].
Qed.

Lemma last_Forall (P : Q -> Prop) (l : list Q) (d : Q) :
  Forall P l -> l <> [] -> P (last l d).
Proof.
  induction 1 as [|x r Hx Hr IH]; intro Hne; [congruence|].
  destruct r as [|y r]; [exact Hx|].
  change (P (last (y :: r) d)). apply IH. discriminate.
Qed.

(** ** What every run of the planner guarantees *)

Section PlanShape.

Variables (duration : Q) (silence_points : list Q).
Variables (min_segment max_segment : Q).
Hypothesis min_positive : 0 < min_segment.
Hypothesis min_le_max : min_segment <= max_segment.

Local Abbreviation cut_after p :=
  (select_cut silence_points (p + min_segment) (p + max_segment)).

(** The planner returns, and a relation that holds between the cursor and
    the cut of every iteration holds between all neighbours of
    [0 :: cuts]. *)
Lemma plan_chain (R : Q -> Q -> Prop) :
  (forall p, p + max_segment < duration -> R p (cut_after p)) ->
  exists cuts,
    returns duration silence_points min_segment max_segment cuts
    /\ consecutive R 0 cuts
    /\ (duration <= last cuts 0 \/ duration <= last cuts 0 + max_segment).
Proof.
  intro HR.
  destruct (returns_total duration silence_points min_segment max_segment
              min_positive min_le_max) as [cuts Hr].
  exists cuts. split; [exact Hr|].
  apply (returns_chain duration silence_points min_segment max_segment);
    [|exact Hr].
  intros p _ Hlt. apply HR; exact Hlt.
Qed.

Lemma cut_after_gap (p : Q) : min_segment <= cut_after p - p.
Proof.
  pose proof (cut_after_min silence_points min_segment max_segment p
                min_le_max).
  lra.
Qed.

(** A cut that is not a silence point closes a gap of [max_segment]. *)
Lemma cut_after_fixed (p : Q) :
  In (cut_after p) silence_points \/ cut_after p - p == max_segment.
Proof.
  destruct (cut_after_origin silence_points min_segment max_segment p)
    as [H|H]; [left; exact H|right].
  rewrite H. ring.
Qed.

End PlanShape.

(** ** The planner on small inputs *)

Example no_silence_fixed_cuts :
  find_optimal_cut_points 40 [] 5 15 3 = Some [15; 30].
Proof. reflexivity. Qed.

Example short_file_no_cut :
  find_optimal_cut_points 12 [] 5 15 0 = Some [].
Proof. reflexivity. Qed.

Example silence_beyond_window :
  find_optimal_cut_points 40 [2; 18] 5 15 3 = Some [18; 33].
Proof. reflexivity. Qed.

Example no_fuel_no_answer :
  find_optimal_cut_points 40 [] 5 15 2 = None.
Proof. reflexivity. Qed.

Example worked_example_iterations :
  loop_iterations 40 [6; 11; 14; 17; 22; 28; 33] 5 15 3 = Some 3%nat.
Proof. reflexivity. Qed.

(** * The claims about the planner *)

(** C1.  In an iteration that appends a cut ([ideal_end < duration]), on an
    ascending silence list, when some silence point lies in the window
    [[min_end, ideal_end]], the appended cut is the largest silence point of
    that window, and it becomes the new cursor. *)
Theorem window_cut_is_latest
    (duration : Q) (silence_points : list Q) (min_segment max_segment : Q)
    (st : loop_state) :
  ascending silence_points ->
  current_start st + max_segment < duration ->
  (exists s, In s silence_points
             /\ in_window (current_start st + min_segment)
                          (current_start st + max_segment) s) ->
  exists c,
    loop_body duration silence_points min_segment max_segment st
      = Some (mkState c (cut_points st ++ [c]))
    /\ In c silence_points
    /\ in_window (current_start st + min_segment)
                 (current_start st + max_segment) c
    /\ (forall s, In s silence_points ->
                  in_window (current_start st + min_segment)
                            (current_start st + max_segment) s ->
                  s <= c).
Proof.
  intros Hasc Hlt (s & Hin & Hw).
  apply ascending_strongly in Hasc.
  destruct (scan_window_finds _ _ _ Hasc None s Hin Hw) as (c & Hc & Hcin).
  exists c. repeat split.
  - unfold loop_body, select_cut.
    apply Qle_bool_false in Hlt. rewrite Hlt, Hc. reflexivity.
  - exact Hcin.
  - apply scan_window_origin in Hc.
    destruct Hc as [Hc|[_ [Hc _]]]; [discriminate Hc|exact Hc].
  - apply scan_window_origin in Hc.
    destruct Hc as [Hc|[_ [_ Hc]]]; [discriminate Hc|exact Hc].
  - intros s' Hs' Hw'. eapply scan_window_upper; eauto.
Qed.

(** The first iteration on the list of the worked example: the window is
    [[5, 15]] and holds 6, 11 and 14. *)
Lemma window_cut_is_latest_witness :
  exists c,
    loop_body 40 [6; 11; 14; 17; 22; 28; 33] 5 15 initial_state
      = Some (mkState c (cut_points initial_state ++ [c]))
    /\ In c [6; 11; 14; 17; 22; 28; 33]
    /\ in_window (current_start initial_state + 5)
                 (current_start initial_state + 15) c
    /\ (forall s, In s [6; 11; 14; 17; 22; 28; 33] ->
                  in_window (current_start initial_state + 5)
                            (current_start initial_state + 15) s ->
                  s <= c).
Proof.
  apply (window_cut_is_latest 40 [6; 11; 14; 17; 22; 28; 33] 5 15
           initial_state).
  - unfold ascending. repeat constructor; discriminate.
  - reflexivity.
  - exists 11. split; [simpl; tauto|split; discriminate].
Defined.

(** C2, as the code has it.  On [duration = 40],
    [silence = [6, 11, 14, 17, 22, 28, 33]], [min = 5], [max = 15] the
    planner returns [[14, 28]] and nothing else: 14 is the largest silence
    point of [[5, 15]], 28 the largest of [[19, 29]], and from 28 the rest
    fits into one segment. *)
Theorem worked_example_cuts :
  returns 40 [6; 11; 14; 17; 22; 28; 33] 5 15 [14; 28]
  /\ (forall cuts,
        returns 40 [6; 11; 14; 17; 22; 28; 33] 5 15 cuts -> cuts = [14; 28]).
Proof.
  assert (H : returns 40 [6; 11; 14; 17; 22; 28; 33] 5 15 [14; 28])
    by (exists 3%nat; reflexivity).
  split; [exact H|].
  intros cuts Hc. eapply returns_deterministic; eassumption.
Qed.

(** C2, as stated, fails: the planner does not return [[11, 22, 33]] on that
    input. *)
Lemma worked_example_not_11_22_33 :
  find_optimal_cut_points 40 [6; 11; 14; 17; 22; 28; 33] 5 15 3
    = Some [14; 28]
  /\ ~ returns 40 [6; 11; 14; 17; 22; 28; 33] 5 15 [11; 22; 33].
Proof.
  split; [reflexivity|].
  intro H.
  assert (H' : returns 40 [6; 11; 14; 17; 22; 28; 33] 5 15 [14; 28])
    by (exists 3%nat; reflexivity).
  pose proof (returns_deterministic _ _ _ _ _ _ H H') as E.
  discriminate E.
Qed.














(** * The claim about the duration probe *)

Import Probe.

Section ProbeFacts.

Variable float_of_string : string -> option Q.

Lemma subscript_raises (v : json) (key : string) (e : exn) :
  subscript v key = Raise e -> e = KeyError \/ e = TypeError.
Proof.
  destruct v; simpl; try (intro H; injection H as <-; right; reflexivity).
  destruct (lookup key members); [discriminate|].
  intro H; injection H as <-; left; reflexivity.
Qed.

Lemma duration_field_raises (data : json) (e : exn) :
  duration_field data = Raise e -> e = KeyError \/ e = TypeError.
Proof.
  unfold duration_field, bind.
  destruct (subscript data "format") as [format|e'] eqn:H1.
  - apply subscript_raises.
  - intro H. injection H as <-. eapply subscript_raises; exact H1.
Qed.

Lemma py_float_raises (v : json) (e : exn) :
  py_float float_of_string v = Raise e ->
  e = TypeError
  \/ (e = ValueError /\ exists s, v = JString s /\ float_of_string s = None).
Proof.
  destruct v; simpl; try discriminate;
    try (intro H; injection H as <-; left; reflexivity).
  destruct (float_of_string s) eqn:Hs; [discriminate|].
  intro H; injection H as <-. right. split; [reflexivity|].
  exists s. split; [reflexivity|exact Hs].
Qed.

Lemma probe_fails_none (p : process) :
  probe_fails float_of_string p ->
  get_audio_duration float_of_string p = Return None.
Proof.
  destruct p as [|returncode document]; simpl; [tauto|].
  unfold get_audio_duration, attempt. simpl.
  destruct (Z.eqb_spec returncode 0) as [->|Hrc]; [|reflexivity].
  intros [H | [-> | (data & -> & [H | (s & H & Hs)])]].
  - congruence.
  - reflexivity.
  - simpl. rewrite H. reflexivity.
  - simpl. rewrite H. simpl. rewrite Hs. reflexivity.
Qed.

Lemma none_probe_fails (p : process) :
  get_audio_duration float_of_string p = Return None ->
  probe_fails float_of_string p.
Proof.
  destruct p as [|returncode document]; [discriminate|].
  unfold get_audio_duration, attempt. simpl.
  destruct (Z.eqb_spec returncode 0) as [->|Hrc]; [|left; exact Hrc].
  destruct document as [data|]; [|right; left; reflexivity].
  simpl. intro H. right; right. exists data. split; [reflexivity|].
  destruct (duration_field data) as [field|e] eqn:Hf.
  - simpl in H.
    destruct (py_float float_of_string field) as [d|e] eqn:Hd;
      [discriminate H|].
    apply py_float_raises in Hd.
    destruct Hd as [-> | [-> (s & -> & Hs)]]; [discriminate H|].
    right. exists s. split; [reflexivity|exact Hs].
  - apply duration_field_raises in Hf as He.
    destruct He as [-> | ->]; [left; reflexivity|discriminate H].
Qed.

Lemma field_denotes_some (p : process) (d : Q) :
  field_denotes float_of_string p d ->
  get_audio_duration float_of_string p = Return (Some d).
Proof.
  intros (data & field & -> & Hf & Hd).
  unfold get_audio_duration, attempt. simpl. rewrite Hf. simpl.
  rewrite Hd. reflexivity.
Qed.

End ProbeFacts.




(** * The claim about the segment writer *)

Import Writer.

Example three_segments_of_foo :
  map (fun r => (output (fst r), ss (fst r), t (fst r)))
    (split_audio_file (fun _ => "foo"%string) (fun _ => true)
       "foo.wav" "./wav" [14; 28])
  = [("./wav/split_foo_000.wav"%string, 0, Some (14 - 0));
     ("./wav/split_foo_001.wav"%string, 14, Some (28 - 14));
     ("./wav/split_foo_002.wav"%string, 28, None)].
Proof. reflexivity. Qed.

(** C10.  With an empty cut-point sequence [split_audio_file] makes exactly
    one attempt: it writes [split_<stem>_000.wav] in the output directory,
    from offset [0], without a duration, that is to the end of the file. *)
Theorem no_cuts_one_whole_segment
    (path_stem : string -> string) (run : command -> bool)
    (input_file output_dir : string) :
  split_audio_file path_stem run input_file output_dir []
  = [(mkCommand input_file 0 None
        (path_join output_dir
           ("split_" ++ path_stem input_file ++ "_000.wav")%string),
      run (mkCommand input_file 0 None
             (path_join output_dir
                ("split_" ++ path_stem input_file ++ "_000.wav")%string)))].
Proof.
  reflexivity.
Qed.

(** * Beyond the claims: the other branches of the planner *)

Section OtherBranches.

Variables (min_end ideal_end : Q).

(** Without a point in the window the first scan leaves [best_cut] alone,
    whatever the order of the list. *)
Lemma scan_window_misses (l : list Q) :
  (forall s, In s l -> ~ in_window min_end ideal_end s) ->
  forall best, scan_window min_end ideal_end best l = best.
Proof.
  induction l as [|x r IH]; intros Hno best; simpl; [reflexivity|].
  case_Qle min_end x H1; case_Qle x ideal_end H2; simpl.
  - exfalso. apply (Hno x); [left; reflexivity|split; assumption].
  - case_Qlt ideal_end x H3; [reflexivity|exfalso; lra].
  - case_Qlt ideal_end x H3; [reflexivity|].
    apply IH. intros s Hs. apply Hno. right; exact Hs.
  - case_Qlt ideal_end x H3; [reflexivity|exfalso; lra].
Qed.

(** On an ascending list a first scan that finds nothing proves the window
    empty. *)
Lemma scan_window_none_empty (l : list Q) :
  StronglySorted Qle l ->
  scan_window min_end ideal_end None l = None ->
  forall s, In s l -> ~ in_window min_end ideal_end s.
Proof.
  intros Hs Hnone s Hin Hw.
  destruct (scan_window_finds min_end ideal_end l Hs None s Hin Hw)
    as (c & Hc & _).
  congruence.
Qed.

Lemma first_after_finds (l : list Q) :
  (exists s, In s l /\ min_end < s) ->
  exists c, first_after min_end l = Some c.
Proof.
  induction l as [|x r IH]; intros (s & Hin & Hs); [destruct Hin|].
  simpl. case_Qlt min_end x H1; [eexists; reflexivity|].
  apply IH. destruct Hin as [<-|Hin]; [exfalso; lra|].
  exists s. split; assumption.
Qed.

Lemma first_after_least (l : list Q) :
  StronglySorted Qle l ->
  forall c,
    first_after min_end l = Some c ->
    forall s, In s l -> min_end < s -> c <= s.
Proof.
  induction 1 as [|x r Hs IH Hx]; intros c H s Hin Hlt; [destruct Hin|].
  rewrite Forall_forall in Hx. simpl in H.
  case_Qlt min_end x H1.
  - injection H as <-. destruct Hin as [<-|Hin]; [apply Qle_refl|].
    apply Hx; exact Hin.
  - destruct Hin as [<-|Hin]; [exfalso; lra|]. eapply IH; eauto.
Qed.

Lemma first_after_none (l : list Q) :
  (forall s, In s l -> s <= min_end) -> first_after min_end l = None.
Proof.
  induction l as [|x r IH]; intro Hall; simpl; [reflexivity|].
  case_Qlt min_end x H1.
  - specialize (Hall x (or_introl eq_refl)). exfalso; lra.
  - apply IH. intros s Hs. apply Hall. right; exact Hs.
Qed.

(** With every point before [min_end] both scans find nothing. *)
Lemma select_cut_fixed (l : list Q) :
  (forall s, In s l -> s < min_end) ->
  select_cut l min_end ideal_end = ideal_end.
Proof.
  intro Hall. unfold select_cut.
  rewrite scan_window_misses.
  - rewrite first_after_none; [reflexivity|].
    intros s Hs. apply Qlt_le_weak. apply Hall; exact Hs.
  - intros s Hs [H1 _]. specialize (Hall s Hs). lra.
Qed.

End OtherBranches.

(** X1.  In an iteration that appends a cut, on an ascending list with no
    silence point in the window but with one after [min_end], the cut is the
    smallest silence point after [min_end], and it lies beyond
    [ideal_end]: the segment is longer than [max_segment]. *)
Theorem fallback_cut_is_next_silence
    (duration : Q) (silence_points : list Q) (min_segment max_segment : Q)
    (st : loop_state) :
  ascending silence_points ->
  current_start st + max_segment < duration ->
  (forall s, In s silence_points ->
             ~ in_window (current_start st + min_segment)
                         (current_start st + max_segment) s) ->
  (exists s, In s silence_points /\ current_start st + min_segment < s) ->
  exists c,
    loop_body duration silence_points min_segment max_segment st
      = Some (mkState c (cut_points st ++ [c]))
    /\ In c silence_points
    /\ current_start st + max_segment < c
    /\ (forall s, In s silence_points ->
                  current_start st + min_segment < s -> c <= s).
Proof.
  intros Hasc Hlt Hno Hex.
  apply ascending_strongly in Hasc.
  destruct (first_after_finds _ _ Hex) as [c Hc].
  pose proof (first_after_origin _ _ _ Hc) as [Hin Hgt].
  exists c. repeat split.
  - unfold loop_body, select_cut.
    apply Qle_bool_false in Hlt. rewrite Hlt.
    rewrite (scan_window_misses _ _ _ Hno), Hc. reflexivity.
  - exact Hin.
  - apply Qnot_le_lt. intro Hle. apply (Hno c Hin).
    split; [apply Qlt_le_weak; exact Hgt|exact Hle].
  - intros s Hs Hs'. eapply first_after_least; eauto.
Qed.

Lemma fallback_cut_is_next_silence_witness :
  exists c,
    loop_body 40 [2; 18; 30] 5 15 initial_state
      = Some (mkState c (cut_points initial_state ++ [c]))
    /\ In c [2; 18; 30]
    /\ current_start initial_state + 15 < c
    /\ (forall s, In s [2; 18; 30] ->
                  current_start initial_state + 5 < s -> c <= s).
Proof.
  apply (fallback_cut_is_next_silence 40 [2; 18; 30] 5 15 initial_state).
  - unfold ascending. repeat constructor; discriminate.
  - reflexivity.
  - intros s [<-|[<-|[<-|[]]]] [H1 H2];
      solve [apply H1; reflexivity | apply H2; reflexivity].
  - exists 18. split; [simpl; tauto|reflexivity].
Defined.

(** X2.  In an iteration that appends a cut, when every silence point lies
    before [min_end], in whatever order, the cut is the fixed one at
    [ideal_end = current_start + max_segment]. *)
Theorem hard_fallback_cut
    (duration : Q) (silence_points : list Q) (min_segment max_segment : Q)
    (st : loop_state) :
  current_start st + max_segment < duration ->
  (forall s, In s silence_points -> s < current_start st + min_segment) ->
  loop_body duration silence_points min_segment max_segment st
  = Some (mkState (current_start st + max_segment)
                  (cut_points st ++ [current_start st + max_segment])).
Proof.
  intros Hlt Hall.
  unfold loop_body.
  apply Qle_bool_false in Hlt. rewrite Hlt.
  rewrite (select_cut_fixed _ _ _ Hall). reflexivity.
Qed.

Lemma hard_fallback_cut_witness :
  loop_body 40 [2; 3] 5 15 initial_state
  = Some (mkState (current_start initial_state + 15)
                  (cut_points initial_state
                     ++ [current_start initial_state + 15])).
Proof.
  apply (hard_fallback_cut 40 [2; 3] 5 15 initial_state).
  - reflexivity.
  - intros s [<-|[<-|[]]]; reflexivity.
Defined.

(** ** The whole plan beyond the claims *)

Lemma last_cons (l : list Q) (c d : Q) : last (c :: l) d = last l c.
Proof.
  destruct l as [|x r]; [reflexivity|].
  change (last (x :: r) d = last (x :: r) c). apply last_cons_default.
Qed.

Lemma uniform_last (step : Q) (l : list Q) :
  forall p,
    consecutive (fun p c => c = p + step) p l ->
    last l p == p + Qnat (List.length l) * step.
Proof.
  induction l as [|c r IH]; intros p H.
  - simpl. change (Qnat 0) with 0. ring.
  - destruct H as [Hc Hr]. rewrite last_cons, (IH c Hr).
    change (List.length (c :: r)) with (S (List.length r)).
    rewrite Qnat_succ, Hc. ring.
Qed.

Lemma gaps_last (step : Q) (l : list Q) :
  forall p,
    consecutive (fun p c => step <= c - p) p l ->
    p + Qnat (List.length l) * step <= last l p.
Proof.
  induction l as [|c r IH]; intros p H.
  - simpl. change (Qnat 0) with 0. lra.
  - destruct H as [Hc Hr]. rewrite last_cons.
    specialize (IH c Hr).
    change (List.length (c :: r)) with (S (List.length r)).
    rewrite Qnat_succ. lra.
Qed.

Lemma consecutive_nonneg (R : Q -> Q -> Prop) (l : list Q) :
  forall p,
    0 <= p ->
    consecutive (fun p c => 0 <= p -> R p c /\ 0 <= c) p l ->
    consecutive R p l.
Proof.
  induction l as [|c r IH]; intros p Hp H; [exact I|].
  destruct H as [Hc Hr]. destruct (Hc Hp) as [HR Hc0].
  split; [exact HR|apply IH; assumption].
Qed.

Lemma consecutive_removelast (d : Q) (l : list Q) :
  forall p,
    consecutive (fun p c => p < d) p l ->
    Forall (fun c => c < d) (removelast l).
Proof.
  induction l as [|c r IH]; intros p H; [constructor|].
  destruct H as [_ Hr]. destruct r as [|c' r']; [constructor|].
  change (removelast (c :: c' :: r')) with (c :: removelast (c' :: r')).
  constructor; [exact (proj1 Hr)|apply (IH c); exact Hr].
Qed.

Lemma consecutive_Forall (P : Q -> Prop) (l : list Q) :
  forall p, consecutive (fun _ c => P c) p l -> Forall P l.
Proof.
  induction l as [|c r IH]; intros p H; [constructor|].
  destruct H as [Hc Hr]. constructor; [exact Hc|apply (IH c); exact Hr].
Qed.









(** A silence point beyond the end of the file can become the last cut. *)
Example cut_beyond_duration :
  find_optimal_cut_points 40 [50] 5 15 2 = Some [50].
Proof. reflexivity. Qed.

(** * Beyond the claims: what the probe lets through *)

Import Shapes.

Lemma subscript_type_error (v : json) (key : string) :
  subscript v key = Raise TypeError <-> is_object v = false.
Proof.
  destruct v; simpl; split; intro H; try reflexivity; try discriminate H.
  destruct (lookup key members); discriminate H.
Qed.

Lemma duration_field_type_error (data : json) :
  duration_field data = Raise TypeError
  <-> is_object data = false
      \/ (exists format,
            subscript data "format" = Return format
            /\ is_object format = false).
Proof.
  unfold duration_field, bind.
  destruct (subscript data "format") as [format|e] eqn:Hs; split.
  - intro H. right. exists format. split; [reflexivity|].
    apply subscript_type_error in H. exact H.
  - intros [H|(format' & Hf & H)].
    + apply (subscript_type_error data "format") in H. congruence.
    + injection Hf as <-. apply subscript_type_error. exact H.
  - intro H. injection H as ->. left.
    apply (subscript_type_error data "format"). exact Hs.
  - intros [H|(format' & Hf & _)]; [|discriminate Hf].
    apply (subscript_type_error data "format") in H. congruence.
Qed.

Lemma py_float_type_error (float_of_string : string -> option Q) (v : json) :
  py_float float_of_string v = Raise TypeError <-> unconvertible v = true.
Proof.
  destruct v; simpl; split; intro H; try reflexivity; try discriminate H.
  destruct (float_of_string s); discriminate H.
Qed.


(** * Beyond the claims: the segment writer on any cut list *)

(** ** Strings *)

Lemma append_assoc (a b c : string) :
  ((a ++ b) ++ c = a ++ b ++ c)%string.
Proof.
  induction a as [|x a IH]; simpl; [reflexivity|]. rewrite IH. reflexivity.
Qed.

Lemma append_empty_r (a : string) : (a ++ "" = a)%string.
Proof.
  induction a as [|x a IH]; simpl; [reflexivity|]. rewrite IH. reflexivity.
Qed.

Lemma append_length (a b : string) :
  String.length (a ++ b) = (String.length a + String.length b)%nat.
Proof.
  induction a as [|x a IH]; simpl; [reflexivity|]. rewrite IH. reflexivity.
Qed.

Lemma append_inv_head (a x y : string) :
  (a ++ x = a ++ y)%string -> x = y.
Proof.
  induction a as [|c a IH]; simpl; intro H; [exact H|].
  injection H as H. apply IH; exact H.
Qed.

Lemma list_ascii_of_append (a b : string) :
  list_ascii_of_string (a ++ b)
  = (list_ascii_of_string a ++ list_ascii_of_string b)%list.
Proof.
  induction a as [|c a IH]; simpl; [reflexivity|]. rewrite IH. reflexivity.
Qed.

Lemma append_inv_tail (a x y : string) :
  (x ++ a = y ++ a)%string -> x = y.
Proof.
  intro H. apply (f_equal list_ascii_of_string) in H.
  rewrite !list_ascii_of_append in H. apply app_inv_tail in H.
  apply (f_equal string_of_list_ascii) in H.
  rewrite !string_of_list_ascii_of_string in H. exact H.
Qed.

(** ** The index in a file name *)

Lemma read_zeros (k : nat) (s : string) :
  read_index (zeros k ++ s) = read_index s.
Proof.
  unfold read_index. induction k as [|k IH]; simpl; [reflexivity|].
  destruct (NilEmpty.uint_of_string (zeros k ++ s)) as [d|] eqn:Hd;
    destruct (NilEmpty.uint_of_string s) as [d'|] eqn:Hd';
    simpl in *; try discriminate IH; [|reflexivity].
  injection IH as IH. f_equal. exact IH.
Qed.

Lemma read_digits (n : nat) :
  read_index (NilZero.string_of_uint (Nat.to_uint n)) = Some n.
Proof.
  unfold read_index.
  pose proof (DecimalNat.Unsigned.of_to n) as Hn.
  destruct (Nat.to_uint n) as [|d|d|d|d|d|d|d|d|d|d] eqn:Hd;
    try (unfold NilZero.string_of_uint; rewrite NilEmpty.usu; simpl;
         f_equal; exact Hn).
  simpl. f_equal. exact Hn.
Qed.

Lemma format_03d_reads (n : nat) : read_index (format_03d n) = Some n.
Proof.
  unfold format_03d. rewrite read_zeros. apply read_digits.
Qed.

Lemma format_03d_injective (n m : nat) :
  format_03d n = format_03d m -> n = m.
Proof.
  intro H.
  pose proof (format_03d_reads n) as Hn.
  pose proof (format_03d_reads m) as Hm.
  rewrite H in Hn. congruence.
Qed.

Lemma zeros_length (k : nat) : String.length (zeros k) = k.
Proof.
  induction k as [|k IH]; simpl; [reflexivity|]. rewrite IH. reflexivity.
Qed.

(** X12.  The three-digit index of a file name reads back as the segment
    number, and it is at least three characters wide. *)
Theorem format_03d_round_trip (n : nat) :
  read_index (format_03d n) = Some n
  /\ (3 <= String.length (format_03d n))%nat.
Proof.
  split; [apply format_03d_reads|].
  unfold format_03d. rewrite append_length, zeros_length. lia.
Qed.

(** ** The loop of the writer *)

Section WriterFacts.

Variable path_stem : string -> string.
Variables (input_file output_dir : string).

Local Abbreviation name := (output_name path_stem input_file output_dir).
Local Abbreviation ends_of cuts := (map Some cuts ++ [None])%list.

Lemma split_loop_outputs (run : command -> bool) (cuts : list Q) :
  forall start_time segment_num,
    map (fun r => output (fst r))
      (split_loop path_stem run input_file output_dir start_time segment_num
         (ends_of cuts))
    = map name (seq segment_num (S (List.length cuts))).
Proof.
  induction cuts as [|c r IH]; intros start_time segment_num.
  - reflexivity.
  - change (ends_of (c :: r)) with (Some c :: ends_of r).
    cbn [split_loop map fst output]. rewrite IH. reflexivity.
Qed.

Lemma split_loop_commands (run run' : command -> bool) (cuts : list Q) :
  forall start_time segment_num,
    map fst
      (split_loop path_stem run input_file output_dir start_time segment_num
         (ends_of cuts))
    = map fst
        (split_loop path_stem run' input_file output_dir start_time
           segment_num (ends_of cuts)).
Proof.
  induction cuts as [|c r IH]; intros start_time segment_num.
  - reflexivity.
  - change (ends_of (c :: r)) with (Some c :: ends_of r).
    cbn [split_loop map fst]. rewrite (IH c (S segment_num)). reflexivity.
Qed.

Lemma split_loop_outcomes (run : command -> bool) (cuts : list Q) :
  forall start_time segment_num,
    Forall (fun r => snd r = run (fst r))
      (split_loop path_stem run input_file output_dir start_time segment_num
         (ends_of cuts)).
Proof.
  induction cuts as [|c r IH]; intros start_time segment_num.
  - repeat constructor.
  - change (ends_of (c :: r)) with (Some c :: ends_of r).
    cbn [split_loop]. constructor; [reflexivity|apply IH].
Qed.

Lemma contiguous_start (cmds : list command) (s s' : Q) :
  s == s' -> contiguous s cmds -> contiguous s' cmds.
Proof.
  revert s s'. induction cmds as [|cmd rest IH]; intros s s' Hs H; [exact H|].
  destruct H as [Hss H]. split; [rewrite <- Hs; exact Hss|].
  destruct rest as [|cmd' rest']; [exact H|].
  destruct H as (d & Hd & H). exists d. split; [exact Hd|].
  apply (IH (s + d)); [rewrite Hs; reflexivity|exact H].
Qed.

Lemma split_loop_contiguous (run : command -> bool) (cuts : list Q) :
  forall start_time segment_num,
    contiguous start_time
      (map fst
         (split_loop path_stem run input_file output_dir start_time
            segment_num (ends_of cuts))).
Proof.
  induction cuts as [|c r IH]; intros start_time segment_num.
  - simpl. split; reflexivity.
  - change (ends_of (c :: r)) with (Some c :: ends_of r).
    cbn [split_loop map fst].
    specialize (IH c (S segment_num)).
    destruct (map fst
                (split_loop path_stem run input_file output_dir c
                   (S segment_num) (ends_of r))) as [|cmd' rest'] eqn:Hrest;
      [destruct IH|].
    split; [reflexivity|].
    exists (c - start_time). split; [reflexivity|].
    apply (contiguous_start _ c); [ring|exact IH].
Qed.

(** The durations that the extractions ask for. *)
Lemma split_loop_durations (run : command -> bool) (cuts : list Q) :
  forall start_time segment_num,
    map (fun r => t (fst r))
      (split_loop path_stem run input_file output_dir start_time segment_num
         (ends_of cuts))
    = (map (fun seg => Some (snd seg - fst seg))
         (inner_segments start_time cuts) ++ [None])%list.
Proof.
  induction cuts as [|c r IH]; intros start_time segment_num.
  - reflexivity.
  - change (ends_of (c :: r)) with (Some c :: ends_of r).
    cbn [split_loop map fst t inner_segments]. rewrite IH. reflexivity.
Qed.

(** [os.path.join] puts a fixed text before a relative name. *)
Lemma path_join_relative (dir : string) :
  exists before,
    forall c rest,
      c <> "/"%char ->
      path_join dir (String c rest) = (before ++ String c rest)%string.
Proof.
  assert (Hrel : forall c rest,
             c <> "/"%char -> String.prefix "/" (String c rest) = false).
  { intros c rest Hc.
    change (String.prefix "/" (String c rest))
      with (match ascii_dec "/" c with
            | left _ => String.prefix "" rest
            | right _ => false
            end).
    destruct (ascii_dec "/" c) as [E|_]; [|reflexivity].
    symmetry in E. contradiction. }
  unfold path_join.
  destruct (String.length dir =? 0)%nat.
  - exists ""%string. intros c rest Hc. rewrite (Hrel c rest Hc). reflexivity.
  - destruct (String.eqb _ "/").
    + exists dir. intros c rest Hc. rewrite (Hrel c rest Hc). reflexivity.
    + exists (dir ++ "/")%string. intros c rest Hc.
      rewrite (Hrel c rest Hc). symmetry. apply append_assoc.
Qed.

Lemma output_name_shape :
  exists before,
    forall n,
      name n = (before ++ format_03d n ++ ".wav")%string.
Proof.
  destruct (path_join_relative output_dir) as [before Hb].
  exists (before ++ "split_" ++ path_stem input_file ++ "_")%string.
  intro n. unfold output_name.
  change ("split_" ++ path_stem input_file ++ "_" ++ format_03d n
            ++ ".wav")%string
    with (String "s"
            ("plit_" ++ path_stem input_file ++ "_" ++ format_03d n
               ++ ".wav"))%string.
  rewrite Hb; [|discriminate].
  rewrite !append_assoc. reflexivity.
Qed.

Lemma output_name_injective (n m : nat) : name n = name m -> n = m.
Proof.
  destruct output_name_shape as [before Hb]. rewrite !Hb. intro H.
  apply append_inv_head, append_inv_tail in H.
  apply format_03d_injective; exact H.
Qed.

End WriterFacts.




(** X11.  No two attempts for one input file write to the same output
    file. *)
Theorem output_files_are_distinct
    (path_stem : string -> string) (run : command -> bool)
    (input_file output_dir : string) (cut_points : list Q) :
  NoDup
    (map (fun r => output (fst r))
       (split_audio_file path_stem run input_file output_dir cut_points)).
Proof.
  unfold split_audio_file. rewrite split_loop_outputs.
  apply Injective_map_NoDup; [|apply seq_NoDup].
  intros n m. apply output_name_injective.
Qed.

(** * Beyond the claims: the silence detector *)

(** ** Prefixes and occurrences *)

Lemma prefix_empty (s : string) : String.prefix "" s = true.
Proof. destruct s; reflexivity. Qed.

Lemma prefix_cons (a b : ascii) (p s : string) :
  String.prefix (String a p) (String b s) = true
  <-> a = b /\ String.prefix p s = true.
Proof.
  change (String.prefix (String a p) (String b s))
    with (match ascii_dec a b with
          | left _ => String.prefix p s
          | right _ => false
          end).
  destruct (ascii_dec a b) as [E|E]; split.
  - intro H. split; assumption.
  - intros [_ H]; exact H.
  - discriminate.
  - intros [H _]. contradiction.
Qed.

Lemma prefix_of_empty (a : ascii) (p : string) :
  String.prefix (String a p) "" = false.
Proof. reflexivity. Qed.

(** A prefix of a prefix. *)
Lemma prefix_app_l (a b : string) :
  forall s, String.prefix (a ++ b) s = true -> String.prefix a s = true.
Proof.
  induction a as [|x a IH]; intros s H; [apply prefix_empty|].
  destruct s as [|y s]; [discriminate H|].
  change ((String x a ++ b)%string) with (String x (a ++ b)) in H.
  apply prefix_cons in H. destruct H as [-> H].
  apply prefix_cons. split; [reflexivity|apply IH; exact H].
Qed.

Lemma prefix_app_r (p a : string) :
  forall b, String.prefix p a = true -> String.prefix p (a ++ b) = true.
Proof.
  revert a. induction p as [|x p IH]; intros a b H; [apply prefix_empty|].
  destruct a as [|y a]; [discriminate H|].
  apply prefix_cons in H. destruct H as [-> H].
  change ((String y a ++ b)%string) with (String y (a ++ b)).
  apply prefix_cons. split; [reflexivity|apply IH; exact H].
Qed.

Lemma prefix_self_app (p b : string) : String.prefix p (p ++ b) = true.
Proof.
  induction p as [|x p IH]; [apply prefix_empty|].
  change ((String x p ++ b)%string) with (String x (p ++ b)).
  apply prefix_cons. split; [reflexivity|exact IH].
Qed.

Import Detector.

Lemma contains_cons (sub : string) (c : ascii) (s : string) :
  contains sub (String c s) = String.prefix sub (String c s) || contains sub s.
Proof. reflexivity. Qed.

Lemma contains_empty (sub : string) :
  contains sub "" = String.prefix sub "".
Proof. simpl. apply orb_false_r. Qed.

Lemma contains_app_r (sub a b : string) :
  contains sub b = true -> contains sub (a ++ b) = true.
Proof.
  intro H. induction a as [|x a IH]; [exact H|].
  change ((String x a ++ b)%string) with (String x (a ++ b)).
  rewrite contains_cons, IH. apply orb_true_r.
Qed.

Lemma contains_app_l (sub a b : string) :
  contains sub a = true -> contains sub (a ++ b) = true.
Proof.
  induction a as [|x a IH]; intro H.
  - rewrite contains_empty in H.
    destruct sub; [|rewrite prefix_of_empty in H; discriminate H].
    destruct b; reflexivity.
  - change ((String x a ++ b)%string) with (String x (a ++ b)).
    rewrite contains_cons in *. apply orb_true_iff in H.
    apply orb_true_iff. destruct H as [H|H].
    + left. apply (prefix_app_r sub (String x a) b H).
    + right. apply IH; exact H.
Qed.

(** ** Splitting *)

Lemma split_skip_nonempty (sep : string) (s : string) :
  forall skip, split_skip sep skip s <> [].
Proof.
  induction s as [|c r IH]; intros skip; cbn [split_skip]; [discriminate|].
  destruct skip as [|k]; [|apply IH].
  destruct (String.prefix sep (String c r)); [discriminate|].
  destruct (split_skip sep 0 r); discriminate.
Qed.

(** Without an occurrence of the separator there is one piece. *)
Lemma split_without_separator (sep s : string) :
  contains sep s = false -> split sep s = [s].
Proof.
  unfold split. induction s as [|c r IH]; intro H; [reflexivity|].
  rewrite contains_cons in H. apply orb_false_iff in H.
  destruct H as [Hp Hc]. cbn [split_skip]. rewrite Hp, (IH Hc). reflexivity.
Qed.

(** A second piece proves an occurrence of the separator. *)
Lemma second_piece_occurrence (sep s piece : string) :
  nth_error (split sep s) 1 = Some piece -> contains sep s = true.
Proof.
  intro H. destruct (contains sep s) eqn:Hc; [reflexivity|].
  rewrite (split_without_separator _ _ Hc) in H. discriminate H.
Qed.

(** Splitting at a one-character separator, piece by piece. *)
Lemma split_char_app (c : ascii) (a b : string) :
  split (String c "") (a ++ String c b)
  = (split (String c "") a ++ split (String c "") b)%list.
Proof.
  unfold split. induction a as [|x a IH].
  - cbn [append split_skip String.length Nat.sub app].
    rewrite (proj2 (prefix_cons c c "" b) (conj eq_refl (prefix_empty b))).
    reflexivity.
  - change ((String x a ++ String c b)%string)
      with (String x (a ++ String c b)).
    cbn [split_skip String.length Nat.sub].
    destruct (ascii_dec c x) as [<-|Hx].
    + rewrite (proj2 (prefix_cons c c "" _) (conj eq_refl (prefix_empty _))).
      rewrite (proj2 (prefix_cons c c "" _) (conj eq_refl (prefix_empty _))).
      rewrite IH. reflexivity.
    + assert (Hp : forall r, String.prefix (String c "") (String x r) = false).
      { intro r. destruct (String.prefix _ _) eqn:E; [|reflexivity].
        apply prefix_cons in E. destruct E as [E _]. contradiction. }
      rewrite !Hp, IH.
      pose proof (split_skip_nonempty (String c "") a 0) as Hne.
      destruct (split_skip (String c "") 0 a); [congruence|reflexivity].
Qed.

Lemma join_head (sep : string) (x : ascii) (piece : string)
    (more : list string) :
  join sep (String x piece :: more) = String x (join sep (piece :: more)).
Proof. destruct more; reflexivity. Qed.

(** [c.join(s.split(c)) == s] for a one-character [c]. *)
Lemma join_split_char (c : ascii) (s : string) :
  join (String c "") (split (String c "") s) = s.
Proof.
  unfold split. induction s as [|x r IH]; [reflexivity|].
  cbn [split_skip String.length Nat.sub].
  pose proof (split_skip_nonempty (String c "") r 0) as Hne.
  destruct (String.prefix (String c "") (String x r)) eqn:Hp.
  - apply prefix_cons in Hp. destruct Hp as [<- _].
    destruct (split_skip (String c "") 0 r) as [|piece more] eqn:Hs;
      [congruence|].
    change (join (String c "") ("" :: piece :: more)%string)
      with (String c (join (String c "") (piece :: more))).
    rewrite IH. reflexivity.
  - destruct (split_skip (String c "") 0 r) as [|piece more] eqn:Hs;
      [congruence|].
    rewrite join_head, IH. reflexivity.
Qed.

Lemma contains_join (sub sep line : string) (lines : list string) :
  In line lines -> contains sub line = true ->
  contains sub (join sep lines) = true.
Proof.
  induction lines as [|l ls IH]; intros Hin Hc; [destruct Hin|].
  destruct ls as [|l' ls'].
  - destruct Hin as [->|[]]. exact Hc.
  - change (join sep (l :: l' :: ls'))
      with (l ++ sep ++ join sep (l' :: ls'))%string.
    destruct Hin as [->|Hin].
    + apply contains_app_l; exact Hc.
    + apply contains_app_r, contains_app_r. apply IH; assumption.
Qed.

(** What occurs in a line occurs in the text. *)
Lemma contains_line (sub text line : string) :
  In line (split newline text) -> contains sub line = true ->
  contains sub text = true.
Proof.
  intros Hin Hc.
  rewrite <- (join_split_char (ascii_of_nat 10) text).
  eapply contains_join; eassumption.
Qed.

(** ** Tokens *)

Lemma tokens_first (tok rest : string) :
  tok <> ""%string -> no_space tok = true -> ends_token rest = true ->
  forall in_token, exists more, tokens in_token (tok ++ rest) = tok :: more.
Proof.
  intros Hne Hns Hrest. induction tok as [|c tok IH]; [congruence|].
  intro in_token.
  change ((String c tok ++ rest)%string) with (String c (tok ++ rest)).
  cbn [no_space] in Hns. apply andb_true_iff in Hns.
  destruct Hns as [Hc Hns]. apply negb_true_iff in Hc.
  cbn [tokens]. rewrite Hc.
  destruct tok as [|c' tok'].
  - change (("" ++ rest)%string) with rest.
    destruct rest as [|r rest']; [eexists; reflexivity|].
    cbn [ends_token] in Hrest. cbn [tokens]. rewrite Hrest.
    eexists; reflexivity.
  - destruct (IH ltac:(discriminate) Hns true) as [more Hm].
    rewrite Hm. eexists; reflexivity.
Qed.

(** ** The loop over the lines *)

Section DetectorFacts.

Variable float_of_string : string -> option Q.

Local Abbreviation scan := (scan_line float_of_string).
Local Abbreviation ends_in line := (line_ends float_of_string line).

Lemma scan_line_ends (found : marks) (line : string) :
  silence_ends (scan found line) = (silence_ends found ++ ends_in line)%list.
Proof.
  unfold line_ends, scan_line.
  destruct (contains "silence_start:" line).
  - destruct (time_after float_of_string "silence_start: " line); simpl;
      rewrite app_nil_r; reflexivity.
  - destruct (contains "silence_end:" line).
    + destruct (time_after float_of_string "silence_end: " line); simpl;
        [reflexivity|rewrite app_nil_r; reflexivity].
    + simpl. rewrite app_nil_r. reflexivity.
Qed.

Lemma fold_scan_ends (lines : list string) :
  forall found,
    silence_ends (fold_left scan lines found)
    = (silence_ends found ++ flat_map (fun l => ends_in l) lines)%list.
Proof.
  induction lines as [|l ls IH]; intro found; simpl.
  - rewrite app_nil_r. reflexivity.
  - rewrite IH, scan_line_ends, <- app_assoc. reflexivity.
Qed.

Lemma silence_ends_of_lines (stderr : string) :
  silence_ends_of float_of_string stderr
  = flat_map (fun l => ends_in l) (split newline stderr).
Proof.
  unfold silence_ends_of. rewrite fold_scan_ends. reflexivity.
Qed.

(** A line gives a silence point only if the marker with its blank occurs
    in it. *)
Lemma line_ends_marker (line : string) :
  ends_in line <> [] -> contains "silence_end: " line = true.
Proof.
  unfold line_ends, scan_line.
  destruct (contains "silence_start:" line).
  - destruct (time_after float_of_string "silence_start: " line); simpl;
      congruence.
  - destruct (contains "silence_end:" line); [|simpl; congruence].
    unfold time_after.
    destruct (nth_error (split "silence_end: " line) 1) as [piece|] eqn:Hn;
      [|simpl; congruence].
    intros _. eapply second_piece_occurrence; exact Hn.
Qed.

End DetectorFacts.

(** X14.  The detector reads the diagnostic text line by line: the silence
    points of two texts joined by a line break are those of the first
    followed by those of the second. *)
Theorem detection_line_by_line
    (float_of_string : string -> option Q) (a b : string) :
  silence_ends_of float_of_string (a ++ newline ++ b)
  = (silence_ends_of float_of_string a
     ++ silence_ends_of float_of_string b)%list.
Proof.
  rewrite !silence_ends_of_lines.
  change (a ++ newline ++ b)%string
    with (a ++ String (ascii_of_nat 10) b)%string.
  unfold newline. rewrite split_char_app, flat_map_app. reflexivity.
Qed.

Lemma flat_map_nil {A B : Type} (f : A -> list B) (l : list A) :
  (forall x, In x l -> f x = []) -> flat_map f l = [].
Proof.
  induction l as [|x r IH]; intro H; [reflexivity|].
  simpl. rewrite (H x (or_introl eq_refl)), IH; [reflexivity|].
  intros y Hy. apply H. right; exact Hy.
Qed.

(** X15.  A diagnostic text in which the marker [silence_end: ] does not
    occur yields no silence point, whatever else it contains. *)
Theorem no_end_marker_no_silence
    (float_of_string : string -> option Q) (stderr : string) :
  contains "silence_end: " stderr = false ->
  silence_ends_of float_of_string stderr = [].
Proof.
  intro Hno. rewrite silence_ends_of_lines.
  apply flat_map_nil. intros line Hin.
  destruct (line_ends float_of_string line) as [|q qs] eqn:He;
    [reflexivity|].
  assert (Hm : contains "silence_end: " line = true).
  { apply (line_ends_marker float_of_string). rewrite He. discriminate. }
  rewrite (contains_line _ _ _ Hin Hm) in Hno. discriminate Hno.
Qed.

Lemma no_end_marker_no_silence_witness :
  silence_ends_of Probe.decimal_float
    "[silencedetect @ 0x55d5] silence_start: 1.52"
  = [].
Proof.
  apply (no_end_marker_no_silence Probe.decimal_float
           "[silencedetect @ 0x55d5] silence_start: 1.52").
  reflexivity.
Defined.

(** ** A marker after a clean prefix *)

(** [silence_] has no border: an occurrence that starts before an [s]
    cannot run across it. *)
Lemma silence_border (x y : string) :
  String.prefix "silence_" (x ++ String "s" y) = true ->
  x = ""%string \/ String.prefix "silence_" x = true.
Proof.
  intro H.
  destruct x as [|c1 x]; [left; reflexivity|right].
  repeat
    (cbn [append] in H;
     apply prefix_cons in H; destruct H as [<- H];
     try (apply prefix_cons; split; [reflexivity|]);
     match type of H with
     | String.prefix "" _ = true => idtac
     | _ => destruct x as [|? x];
            [apply prefix_cons in H; destruct H as [H _]; discriminate H|]
     end).
  apply prefix_empty.
Qed.

Lemma prefix_trans (a b : string) :
  forall s,
    String.prefix a b = true -> String.prefix b s = true ->
    String.prefix a s = true.
Proof.
  revert b. induction a as [|x a IH]; intros b s Hab Hbs;
    [apply prefix_empty|].
  destruct b as [|y b]; [discriminate Hab|].
  destruct s as [|z s]; [discriminate Hbs|].
  apply prefix_cons in Hab, Hbs.
  destruct Hab as [-> Hab], Hbs as [-> Hbs].
  apply prefix_cons. split; [reflexivity|eapply IH; eassumption].
Qed.

Lemma contains_prefix (sub s : string) :
  String.prefix sub s = true -> contains sub s = true.
Proof.
  intro H.
  destruct s; [rewrite contains_empty|rewrite contains_cons, H]; auto.
Qed.

Section CleanPrefix.

(** A pattern that starts with [silence_], and a text before the marker in
    which [silence_] does not occur. *)
Variable pattern : string.
Hypothesis pattern_start : String.prefix "silence_" pattern = true.

Lemma no_match_in_clean_prefix (c : ascii) (pre y : string) :
  contains "silence_" (String c pre) = false ->
  String.prefix pattern (String c pre ++ String "s" y) = false.
Proof.
  intro Hclean.
  destruct (String.prefix pattern (String c pre ++ String "s" y)) eqn:Hp;
    [|reflexivity].
  pose proof (prefix_trans _ _ _ pattern_start Hp) as Hs.
  apply silence_border in Hs. destruct Hs as [Hs|Hs]; [discriminate Hs|].
  rewrite contains_cons, Hs in Hclean. discriminate Hclean.
Qed.

Lemma contains_clean_prefix (pre y : string) :
  contains "silence_" pre = false ->
  contains pattern (pre ++ String "s" y) = contains pattern (String "s" y).
Proof.
  induction pre as [|c pre IH]; intro Hclean; [reflexivity|].
  pose proof (no_match_in_clean_prefix c pre y Hclean) as Hp.
  change ((String c pre ++ String "s" y)%string)
    with (String c (pre ++ String "s" y)) in *.
  rewrite contains_cons, Hp. simpl orb. apply IH.
  rewrite contains_cons in Hclean. apply orb_false_iff in Hclean.
  exact (proj2 Hclean).
Qed.

Lemma split_clean_prefix (pre y : string) :
  contains "silence_" pre = false ->
  split pattern (pre ++ String "s" y)
  = match split pattern (String "s" y) with
    | piece :: more => (pre ++ piece)%string :: more
    | [] => [pre]
    end.
Proof.
  unfold split.
  pose proof (split_skip_nonempty pattern (String "s" y) 0) as Hne.
  remember (split_skip pattern 0 (String "s" y)) as pieces eqn:Hpieces.
  induction pre as [|c pre IH]; intro Hclean.
  - change (("" ++ String "s" y)%string) with (String "s" y).
    rewrite <- Hpieces. destruct pieces; [congruence|reflexivity].
  - pose proof (no_match_in_clean_prefix c pre y Hclean) as Hp.
    change ((String c pre ++ String "s" y)%string)
      with (String c (pre ++ String "s" y)) in *.
    cbn [split_skip]. rewrite Hp, IH.
    + destruct pieces; reflexivity.
    + rewrite contains_cons in Hclean. apply orb_false_iff in Hclean.
      exact (proj2 Hclean).
Qed.

End CleanPrefix.

(** The two markers on a line that starts with the end marker. *)
Lemma start_marker_after_end_marker (tail : string) :
  contains "silence_start:" ("silence_end: " ++ tail)
  = contains "silence_start:" tail.
Proof.
  cbn [append].
  repeat
    (rewrite contains_cons;
     match goal with
     | |- String.prefix ?p ?s || _ = _ =>
         let E := fresh "E" in
         assert (E : String.prefix p s = false);
         [destruct (String.prefix p s) eqn:E'; [exfalso|reflexivity];
          repeat (apply prefix_cons in E'; destruct E' as [E'' E'];
                  try discriminate E''; clear E'')
         |rewrite E; clear E; simpl orb]
     end).
  reflexivity.
Qed.

Lemma split_at_end_marker (tail : string) :
  split "silence_end: " ("silence_end: " ++ tail)
  = EmptyString :: split "silence_end: " tail.
Proof.
  unfold split.
  change ("silence_end: " ++ tail)%string
    with (String "s" ("ilence_end: " ++ tail)).
  cbn [split_skip].
  change (String "s" ("ilence_end: " ++ tail))
    with ("silence_end: " ++ tail)%string.
  rewrite prefix_self_app. reflexivity.
Qed.

(** X13.  A line as [ffmpeg] prints it for the end of a silence is read as
    its timestamp.  The line has a text free of [silence_] before the marker
    [silence_end: ], then a non-empty token without blanks, then nothing or a
    blank and more text, and from the token on it holds neither
    [silence_start:] nor a second [silence_end: ].  The loop appends
    [float(token)] to the end times, or leaves both lists alone when [float]
    rejects the token. *)
Theorem end_marker_line_is_read
    (float_of_string : string -> option Q) (found : marks)
    (before token rest : string) :
  contains "silence_" before = false ->
  token <> ""%string ->
  no_space token = true ->
  ends_token rest = true ->
  contains "silence_start:" (token ++ rest) = false ->
  contains "silence_end: " (token ++ rest) = false ->
  scan_line float_of_string found
    (before ++ "silence_end: " ++ token ++ rest)
  = match float_of_string token with
    | Some end_time =>
        mkMarks (silence_starts found) (silence_ends found ++ [end_time])
    | None => found
    end.
Proof.
  intros Hclean Hne Hns Hrest Hstart Hend.
  set (tail := (token ++ rest)%string) in *.
  assert (Hline : (before ++ "silence_end: " ++ tail)%string
                  = (before ++ String "s" ("ilence_end: " ++ tail))%string)
    by reflexivity.
  unfold scan_line.
  assert (H1 : contains "silence_start:"
                 (before ++ "silence_end: " ++ tail) = false).
  { rewrite Hline, (contains_clean_prefix "silence_start:" eq_refl _ _ Hclean).
    change (String "s" ("ilence_end: " ++ tail))
      with ("silence_end: " ++ tail)%string.
    rewrite start_marker_after_end_marker. exact Hstart. }
  assert (H2 : contains "silence_end:"
                 (before ++ "silence_end: " ++ tail) = true).
  { apply contains_app_r, contains_prefix.
    change ("silence_end: " ++ tail)%string
      with ("silence_end:" ++ " " ++ tail)%string.
    apply prefix_self_app. }
  assert (H3 : split "silence_end: " (before ++ "silence_end: " ++ tail)
               = [before; tail]).
  { rewrite Hline, (split_clean_prefix "silence_end: " eq_refl _ _ Hclean).
    change (String "s" ("ilence_end: " ++ tail))
      with ("silence_end: " ++ tail)%string.
    rewrite split_at_end_marker, (split_without_separator _ _ Hend).
    rewrite append_empty_r. reflexivity. }
  rewrite H1, H2. unfold time_after. rewrite H3. cbn [nth_error].
  destruct (tokens_first token rest Hne Hns Hrest false) as [more Hm].
  unfold split_whitespace, tail. rewrite Hm. reflexivity.
Qed.

Lemma end_marker_line_is_read_witness :
  scan_line Probe.decimal_float (mkMarks [] [152 # 100])
    ("[silencedetect @ 0x55d5] " ++ "silence_end: " ++ "2.31"
       ++ " | silence_duration: 0.79")
  = match Probe.decimal_float "2.31" with
    | Some end_time => mkMarks [] ([152 # 100] ++ [end_time])
    | None => mkMarks [] [152 # 100]
    end.
Proof.
  apply (end_marker_line_is_read Probe.decimal_float
           (mkMarks [] [152 # 100])
           "[silencedetect @ 0x55d5] " "2.31" " | silence_duration: 0.79");
    try reflexivity.
  discriminate.
Defined.

(** * Beyond the claims: one file through [main] *)

Import Driver.

(** Cuts at least [step] apart give extractions at least [step] long. *)
Lemma split_loop_long_enough
    (path_stem : string -> string) (run : command -> bool)
    (input_file output_dir : string) (step : Q) (cuts : list Q) :
  forall start_time segment_num,
    consecutive (fun p c => step <= c - p) start_time cuts ->
    Forall (fun r => forall d, t (fst r) = Some d -> step <= d)
      (split_loop path_stem run input_file output_dir start_time segment_num
         (map Some cuts ++ [None])).
Proof.
  induction cuts as [|c r IH]; intros start_time segment_num H.
  - constructor; [|constructor]. intros d Hd. discriminate Hd.
  - destruct H as [Hc Hr].
    change (map Some (c :: r) ++ [None])%list
      with (Some c :: (map Some r ++ [None]))%list.
    cbn [split_loop]. constructor.
    + intros d Hd. injection Hd as <-. exact Hc.
    + apply IH; exact Hr.
Qed.

Lemma split_audio_file_length
    (path_stem : string -> string) (run : command -> bool)
    (input_file output_dir : string) (cuts : list Q) :
  List.length (split_audio_file path_stem run input_file output_dir cuts)
  = S (List.length cuts).
Proof.
  pose proof (f_equal (@List.length string)
                (split_loop_outputs path_stem input_file output_dir run cuts
                   0 0%nat)) as H.
  rewrite !length_map, length_seq in H. exact H.
Qed.



Example sample_file_actions :
  option_map
    (fun r =>
       match r with
       | Return actions =>
           map (fun a =>
                  match a with
                  | Extracted cmd _ => (output cmd, ss cmd, t cmd)
                  | Copied _ target _ => (target, 0, None)
                  end) actions
       | Raise _ => []
       end)
    (process_file sample_world 3 "foo.wav")
  = Some [("./wav/split_foo_000.wav"%string, 0, Some (14 - 0));
          ("./wav/split_foo_001.wav"%string, 14, Some (14 + 15 - 14));
          ("./wav/split_foo_002.wav"%string, 14 + 15, None)].
Proof. reflexivity. Qed.
